(** * WinGetPro: the core of [wingetpro.py], embedded and verified

    The development follows the source file top to bottom:
    - Python's [str] primitives used by the program ([strip], [lower],
      [splitlines], [find], slicing, the three regular expressions);
    - [run_winget] (the command runner), over an explicit model of the
      operating system;
    - [parse_winget_table] (the table parser);
    - [get_pins] and [_to_rows] (pin registry and row normaliser);
    - [_version_key], [_cell_key], [_sort_tree], [_on_sort] (sorting);
    - [_selected_ids] and the command builders;
    - the worker of [_run_many] (the task queue).
    - [_filter_rows] and [_apply_filter_only] (the local filter);
    - [_poll_queue], [_append_log], [_set_busy], [_fill_table] and the
      worker of [refresh] (the window and its messages);
    - [_winstall_url_for] and [_wingetrun_url_for] (the web links), with
      [urllib.parse.quote] on the same range of characters.

    Text is modelled as [list ascii]; a character is a code point in
    0..255 (the Latin-1 range of Python's [str]), and the character
    classes below are Python's on that range. Python's [int] is [Z];
    indices and lengths are [nat]. *)

From Stdlib Require Import ZArith Ascii String List Lia Bool.
From Stdlib Require Import DecimalString.
From stdpp Require Import gmap strings list fin_maps sorting.

Abbreviation str := (list ascii).
Coercion list_ascii_of_string : string >-> list.
Open Scope string_scope.
Open Scope nat_scope.
Open Scope list_scope.

(** ** Python's [str] primitives *)

Definition code (c : ascii) : N := N_of_ascii c.

(** [str.isspace] on one character, also the class [\s] of [re]. *)
Definition isspace (c : ascii) : bool :=
  let n := code c in
  ((9 <=? n) && (n <=? 13) || (28 <=? n) && (n <=? 32) || (n =? 133) || (n =? 160))%N.

(** The line boundaries of [str.splitlines]. *)
Definition is_linebreak (c : ascii) : bool :=
  let n := code c in
  ((10 <=? n) && (n <=? 13) || (28 <=? n) && (n <=? 30) || (n =? 133))%N.

(** The class [\d] of [re]. *)
Definition isdigit (c : ascii) : bool :=
  let n := code c in ((48 <=? n) && (n <=? 57))%N.

(** [str.lower] on one character. *)
Definition lower_char (c : ascii) : ascii :=
  let n := code c in
  if ((65 <=? n) && (n <=? 90) || (192 <=? n) && (n <=? 222) && negb (n =? 215))%N
  then ascii_of_N (n + 32) else c.

Definition lower (s : str) : str := map lower_char s.

Fixpoint drop_while (p : ascii → bool) (s : str) : str :=
  match s with
  | [] => []
  | c :: s' => if p c then drop_while p s' else s
  end.

Definition lstrip (s : str) : str := drop_while isspace s.
Definition rstrip (s : str) : str := reverse (drop_while isspace (reverse s)).
Definition strip (s : str) : str := rstrip (lstrip s).

(** [s.rstrip(chars)] *)
Definition rstrip_chars (chars : str) (s : str) : str :=
  reverse (drop_while (λ c, bool_decide (c ∈ chars)) (reverse s)).

(** [s.startswith(p)] *)
Fixpoint startswith (p s : str) : bool :=
  match p, s with
  | [], _ => true
  | _ :: _, [] => false
  | a :: p', b :: s' => bool_decide (a = b) && startswith p' s'
  end.

(** [sub in s] *)
Fixpoint contains (sub s : str) : bool :=
  startswith sub s || match s with [] => false | _ :: s' => contains sub s' end.

Fixpoint find_aux (sub s : str) (i : nat) : option nat :=
  if startswith sub s then Some i
  else match s with
       | [] => None
       | _ :: s' => find_aux sub s' (S i)
       end.

(** [s.find(sub, start)]; [None] stands for Python's [-1]. *)
Definition find (s sub : str) (start : nat) : option nat :=
  if length s <? start then None else find_aux sub (drop start s) start.

(** [s[a:b]] for non-negative [a] and [b]. *)
Definition slice (s : str) (a b : nat) : str := take (b - a) (drop a s).

(** [sep.join(parts)] *)
Fixpoint join (sep : str) (parts : list str) : str :=
  match parts with
  | [] => []
  | [p] => p
  | p :: ps => p ++ sep ++ join sep ps
  end.

(** [str(n)] for a non-negative integer. *)
Definition str_of_nat (n : nat) : str :=
  list_ascii_of_string (NilEmpty.string_of_uint (Nat.to_uint n)).

(** [str.splitlines]: [cur] is the current line, reversed. The pair
    carriage return, line feed is one boundary. *)
Fixpoint splitlines_aux (cur : str) (s : str) : list str :=
  match s with
  | [] => match cur with [] => [] | _ => [reverse cur] end
  | c :: s' =>
      if is_linebreak c then
        reverse cur ::
          match s' with
          | c2 :: s'' =>
              if (code c =? 13)%N && (code c2 =? 10)%N
              then splitlines_aux [] s''
              else splitlines_aux [] s'
          | [] => splitlines_aux [] s'
          end
      else splitlines_aux (c :: cur) s'
  end.

Definition splitlines (s : str) : list str := splitlines_aux [] s.

(** The number of leading dashes, for the two patterns anchored at [^-{3,}]. *)
Fixpoint leading_dashes (s : str) : nat :=
  match s with
  | c :: s' => if (code c =? 45)%N then S (leading_dashes s') else 0
  | [] => 0
  end.

(** [re.match(r"^-{3,}\s*$", s)] succeeds. *)
Definition re_match_dash_line (s : str) : bool :=
  let n := leading_dashes s in
  (3 <=? n) && forallb isspace (drop n s).

(** [re.match(r"^-{3,}", s)] succeeds. *)
Definition re_match_dash_prefix (s : str) : bool :=
  3 <=? leading_dashes s.

Definition push_char (c : ascii) (pieces : list str) : list str :=
  match pieces with
  | p :: ps => (c :: p) :: ps
  | [] => [[c]]
  end.

Definition starts_with_space (s : str) : bool :=
  match s with c :: _ => isspace c | [] => false end.

(** [re.split(r"\s{2,}", s)]: a match starts at the first whitespace
    character that is followed by another one and takes the whole run
    ([skipping]); the pieces between matches are returned, the last one
    included, also when empty. *)
Fixpoint re_split_go (skipping : bool) (s : str) : list str :=
  match s with
  | [] => [[]]
  | c :: s' =>
      if skipping then
        if isspace c then re_split_go true s'
        else push_char c (re_split_go false s')
      else if isspace c && starts_with_space s' then [] :: re_split_go true s'
      else push_char c (re_split_go false s')
  end.

Definition re_split_ws2 (s : str) : list str := re_split_go false s.

(** [re.findall(r"\d+", s)]: the maximal runs of digits, in order.
    [cur] is the run being read, reversed. *)
Fixpoint findall_digits_aux (cur : str) (s : str) : list str :=
  match s with
  | [] => match cur with [] => [] | _ => [reverse cur] end
  | c :: s' =>
      if isdigit c then findall_digits_aux (c :: cur) s'
      else match cur with
           | [] => findall_digits_aux [] s'
           | _ => reverse cur :: findall_digits_aux [] s'
           end
  end.

Definition findall_digits (s : str) : list str := findall_digits_aux [] s.

(** [int(s)] for a string of decimal digits. *)
Definition int_of_digits (s : str) : Z :=
  fold_left (λ acc c, (10 * acc + Z.of_N (code c - 48))%Z) s 0%Z.

(** ** The command runner: [run_winget] *)

(** The exceptions [subprocess.run] raises that [run_winget] names:
    [subprocess.TimeoutExpired], and any other [Exception] with its
    message [str(e)]. *)
Inductive exn :=
  | TimeoutExpired
  | OtherException (msg : str).

Inductive result (A : Type) :=
  | Ok (a : A)
  | Raise (e : exn).
Arguments Ok {A} a.
Arguments Raise {A} e.

Record CompletedProcess := {
  returncode : Z;
  stdout : option str;
  stderr : option str
}.

(** The operating system as the program sees it: [shutil.which] and
    [subprocess.run], over a state of the world that a process may
    change. *)
Record OS (World : Type) := {
  which : World → str → option str;
  subprocess_run : World → list str → option Z → result CompletedProcess * World
}.
Arguments which {World} _ _ _.
Arguments subprocess_run {World} _ _ _ _.

(** Python's truth value of an optional string. *)
Definition truthy (o : option str) : bool :=
  match o with Some (_ :: _) => true | _ => false end.

(** [o or ""] *)
Definition or_empty (o : option str) : str :=
  match o with Some s => s | None => [] end.

(** [(p.stdout or "") + (("\n" + p.stderr) if p.stderr else "")] *)
Definition combined_output (p : CompletedProcess) : str :=
  or_empty (stdout p) ++
  (if truthy (stderr p) then "010"%char :: or_empty (stderr p) else []).

Section CommandRunner.
Context {World : Type} (os : OS World).

(** The body of the [try] block: it raises what [subprocess.run] raises. *)
Definition run_winget_try (cmd : list str) (timeout : option Z) (w : World)
  : result (Z * str) * World :=
  match subprocess_run os w cmd timeout with
  | (Ok p, w') => (Ok (returncode p, strip (combined_output p)), w')
  | (Raise e, w') => (Raise e, w')
  end.

Definition run_winget (args : list str) (timeout : option Z) (w : World)
  : result (Z * str) * World :=
  let exe := which os w "winget" in
  if negb (truthy exe) then
    (Ok (127%Z, "winget not found in PATH. Install 'App Installer' from Microsoft Store." : str), w)
  else
    let cmd := or_empty exe :: args in
    match run_winget_try cmd timeout w with
    | (Ok r, w') => (Ok r, w')
    | (Raise TimeoutExpired, w') =>
        (Ok (124%Z, "Timeout running: " ++ join " " cmd), w')
    | (Raise (OtherException e), w') =>
        (Ok (1%Z, "Error running: " ++ join " " cmd ++ "010"%char :: e), w')
    end.
End CommandRunner.

(** ** The table parser: [parse_winget_table] *)

(** A raw table row: a [dict] from column header to trimmed cell. *)
Abbreviation row := (gmap str str).

(** [[ln.rstrip("\n") for ln in output.splitlines() if ln.strip() != ""]] *)
Definition text_lines (output : str) : list str :=
  map (rstrip_chars ["010"%char])
      (filter (λ ln, strip ln ≠ []) (splitlines output)).

(** The test of the header loop. *)
Definition is_header (ln : str) : bool :=
  contains "Id" ln && (contains "Name" ln || contains "Package" ln)
  && negb (contains "---" ln).

(** The header loop: the index of the first header line; [None] is the
    source's [header_idx == -1]. *)
Fixpoint header_index_from (i : nat) (lines : list str) : option nat :=
  match lines with
  | [] => None
  | ln :: rest => if is_header ln then Some i else header_index_from (S i) rest
  end.

Definition header_index (lines : list str) : option nat :=
  header_index_from 0 lines.

(** The [while] loop that looks for the delimiter row: [rest] is
    [lines[delim_idx:]]. It returns [len(lines)] when it runs off the end. *)
Fixpoint delim_index (delim_idx : nat) (rest : list str) : nat :=
  match rest with
  | [] => delim_idx
  | ln :: rest' =>
      if re_match_dash_line (strip ln) then delim_idx
      else if re_match_dash_prefix (strip ln) then delim_idx
      else delim_index (S delim_idx) rest'
  end.

(** [[c.strip() for c in re.split(r"\s{2,}", header_line.strip()) if c.strip()]] *)
Definition col_names (header_line : str) : list str :=
  map strip (filter (λ c, strip c ≠ []) (re_split_ws2 (strip header_line))).

(** The loop that fills [starts], with its two fallbacks. *)
Fixpoint col_starts (header_line : str) (names : list str) (search_from : nat)
  : list nat :=
  match names with
  | [] => []
  | name :: rest =>
      let pos :=
        match find header_line name search_from with
        | Some p => p
        | None =>
            match find header_line name 0 with
            | Some p => p
            | None => search_from
            end
        end in
      pos :: col_starts header_line rest (pos + length name)
  end.

(** The end that stands for "to the end of the line". *)
Definition LAST_END : nat := 100 * 100.

(** The loop that fills [slices]: [(name, starts[i], starts[i+1])], and
    [10_000] as the end of the last one. [starts] is as long as the names,
    so [starts[i]] is always there. *)
Definition build_slices (names : list str) (starts : list nat)
  : list (str * nat * nat) :=
  imap (λ i name,
          (name, default 0 (starts !! i), default LAST_END (starts !! S i)))
       names.

(** The inner loop: [row[name] = ln[start:end].strip()]. *)
Definition make_row (slices : list (str * nat * nat)) (ln : str) : row :=
  foldl (λ (r : row) '(name, start, end_), <[name := strip (slice ln start end_)]> r)
        ∅ slices.

(** [any(v for v in row.values())] *)
Definition any_value (r : row) : bool :=
  existsb (λ kv, negb (bool_decide (kv.2 = []))) (map_to_list r).

(** The loop over the data lines, with its [break] and [continue]. *)
Fixpoint parse_rows (slices : list (str * nat * nat)) (lns : list str) : list row :=
  match lns with
  | [] => []
  | ln :: rest =>
      if startswith "no installed package" (lower (strip ln)) then []
      else if startswith "---" (strip ln) then parse_rows slices rest
      else
        let r := make_row slices ln in
        if any_value r then r :: parse_rows slices rest
        else parse_rows slices rest
  end.

Definition parse_winget_table (output : str) : list row :=
  let lines := text_lines output in
  match lines with
  | [] => []
  | _ =>
    match header_index lines with
    | None => []
    | Some header_idx =>
      let delim_idx := delim_index (S header_idx) (drop (S header_idx) lines) in
      if length lines <=? delim_idx then []
      else
        let header_line := default [] (lines !! header_idx) in
        let names := col_names header_line in
        match names with
        | [] => []
        | _ =>
          let starts := col_starts header_line names 0 in
          let slices := build_slices names starts in
          parse_rows slices (drop (S delim_idx) lines)
        end
    end
  end.

(** ** The pin registry: [get_pins] *)

(** [d.get(key, "")] *)
Definition get (d : row) (key : str) : str := default [] (d !! key).

(** [a or b] on strings. *)
Definition str_or (a b : str) : str :=
  match a with [] => b | _ => a end.

(** The identifier of a raw row: [r.get("Id", "") or r.get("ID", "")]. *)
Definition row_id (r : row) : str := str_or (get r "Id") (get r "ID").

(** The entry [get_pins] stores for one row. *)
Definition pin_entry (r : row) : row :=
  <["Pin type" : str := str_or (str_or (get r "Pin type") (get r "Pin")) (get r "Type")]>
    (<["Version" : str := get r "Version"]>
       (<["Source" : str := get r "Source"]> ∅)).

(** The loop of [get_pins] over the parsed table. *)
Definition pins_of_table (table : list row) : gmap str row :=
  foldl (λ (pins : gmap str row) r,
           let pid := str_or (row_id r) [] in
           match pid with
           | [] => pins
           | _ => <[pid := pin_entry r]> pins
           end)
        ∅ table.

Section PinRegistry.
Context {World : Type} (os : OS World).

Definition get_pins (w : World) : result (gmap str row) * World :=
  match run_winget os [("pin" : str); ("list" : str)] None w with
  | (Raise e, w') => (Raise e, w')
  | (Ok (rc, out), w') =>
      if bool_decide (rc ≠ 0%Z) then (Ok ∅, w')
      else (Ok (pins_of_table (parse_winget_table out)), w')
  end.
End PinRegistry.

(** ** The row normaliser: [_to_rows] *)

Record PackageRow := {
  name : str;
  id : str;
  version : str;
  available : str;
  source : str;
  pinned : str;
  pin_type : str;
  pin_version : str
}.

(** One turn of the loop of [_to_rows]. *)
Definition to_row (pins : gmap str row) (r : row) : PackageRow :=
  let name := str_or (get r "Name") (get r "Package") in
  let pid := row_id r in
  let pin := default ∅ (pins !! pid) in
  {| name := name;
     id := pid;
     version := get r "Version";
     available := get r "Available";
     source := get r "Source";
     pinned := if bool_decide (pid ∈ dom pins) then "Yes" : str else "No" : str;
     pin_type := get pin "Pin type";
     pin_version := get pin "Version" |}.

Definition _to_rows (pins : gmap str row) (table_rows : list row) : list PackageRow :=
  map (to_row pins) table_rows.

(** ** Sorting: [_version_key], [_cell_key], [_sort_tree], [_on_sort] *)

(** The tuples [_version_key] returns: the pair [(0, ())] for an empty
    string, and a triple otherwise. *)
Inductive version_key :=
  | VK2 (d : Z) (nums : list Z)
  | VK3 (d : Z) (nums : list Z) (s : str).

Definition _version_key (s : str) : version_key :=
  match s with
  | [] => VK2 0 []
  | _ =>
      let s := strip s in
      let nums := findall_digits s in
      match nums with
      | _ :: _ => VK3 1 (map int_of_digits nums) (lower s)
      | [] => VK3 0 [] (lower s)
      end
  end.

(** The three shapes of key [_cell_key] returns. *)
Inductive cell_key :=
  | KVersion (k : version_key)
  | KInt (n : Z)
  | KStr (s : str).

Definition _cell_key (col : str) (value : str) : cell_key :=
  let v := strip value in
  if bool_decide (col ∈ [("Version" : str); ("Available" : str); ("PinVersion" : str)])
  then KVersion (_version_key v)
  else if bool_decide (col = ("Pinned" : str))
  then KInt (if bool_decide (lower v = ("yes" : str)) then 0 else 1)
  else KStr (lower v).

(** Python's [<] on sequences: the first position where the elements
    differ decides, and a proper prefix is the smaller one. *)
Fixpoint seq_lt {A : Type} (eqb ltb : A → A → bool) (a b : list A) : bool :=
  match a, b with
  | _, [] => false
  | [], _ :: _ => true
  | x :: a', y :: b' => if eqb x y then seq_lt eqb ltb a' b' else ltb x y
  end.

(** [<] on strings: by code point. *)
Definition code_eqb (x y : ascii) : bool := (code x =? code y)%N.
Definition code_ltb (x y : ascii) : bool := (code x <? code y)%N.
Definition str_lt (a b : str) : bool := seq_lt code_eqb code_ltb a b.

(** [<] on tuples of integers. *)
Definition ints_lt (a b : list Z) : bool := seq_lt Z.eqb Z.ltb a b.

(** The components of a key of [_version_key]; the third one is missing
    in the pair. *)
Definition vk_parts (k : version_key) : Z * list Z * option str :=
  match k with
  | VK2 d nums => (d, nums, None)
  | VK3 d nums s => (d, nums, Some s)
  end.

(** The comparison of what follows two equal components: a tuple that
    ends there is smaller than one that goes on. *)
Definition rest_lt (a b : option str) : bool :=
  match a, b with
  | Some s1, Some s2 => str_lt s1 s2
  | None, Some _ => true
  | _, None => false
  end.

(** Python's [<] on the tuples of [_version_key]: the first component
    that differs decides, and a tuple that is a proper prefix of the
    other is the smaller one. *)
Definition version_key_lt (a b : version_key) : bool :=
  let '(d1, n1, r1) := vk_parts a in
  let '(d2, n2, r2) := vk_parts b in
  if negb (d1 =? d2)%Z then (d1 <? d2)%Z
  else if negb (bool_decide (n1 = n2)) then ints_lt n1 n2
  else rest_lt r1 r2.

(** Python's [<] on keys; [None] is the [TypeError] of comparing keys of
    two shapes. *)
Definition key_lt (a b : cell_key) : option bool :=
  match a, b with
  | KVersion x, KVersion y => Some (version_key_lt x y)
  | KInt x, KInt y => Some (x <? y)%Z
  | KStr x, KStr y => Some (str_lt x y)
  | _, _ => None
  end.

(** A stable sort that only asks [lt], as [list.sort] does: an element
    is put before the first element that is not smaller than it. *)
Fixpoint insert_sorted {A : Type} (lt : A → A → bool) (x : A) (l : list A) : list A :=
  match l with
  | [] => [x]
  | y :: l' => if lt y x then y :: insert_sorted lt x l' else x :: l
  end.

Definition stable_sort {A : Type} (lt : A → A → bool) (l : list A) : list A :=
  foldr (insert_sorted lt) [] l.

(** [l.sort(key=..., reverse=...)]: with [reverse] the list is reversed,
    sorted and reversed again, which keeps equal keys in their order. *)
Definition list_sort {A : Type} (lt : A → A → bool) (reverse : bool) (l : list A)
  : list A :=
  if reverse then rev (stable_sort lt (rev l)) else stable_sort lt l.

(** An item of the tree view: its identifier and its tuple of values. *)
Record item := { iid : nat; values : list str }.

(** [tree.move(iid, "", index)]: the item is detached and put back at
    [index] among the children (at the end when [index] is too large). *)
Definition tree_move (i_d : nat) (index : nat) (tree : list item) : list item :=
  match list_find (λ it, iid it = i_d) tree with
  | None => tree
  | Some (pos, it) =>
      let others := delete pos tree in
      take index others ++ it :: drop index others
  end.

Definition col_index (col : str) : nat :=
  default 0
    ((list_to_map
        [("Name" : str, 0); ("Id" : str, 1); ("Version" : str, 2);
         ("Available" : str, 3); ("Source" : str, 4); ("Pinned" : str, 5);
         ("PinType" : str, 6); ("PinVersion" : str, 7)] : gmap str nat) !! col).

(** [vals[col_index] if col_index < len(vals) else ""] *)
Definition cell (col : str) (it : item) : str :=
  default [] (values it !! col_index col).

(** The comparison [sortable.sort(key=lambda t: t[0])] makes between two
    entries [(key, iid)]. *)
Definition sortable_lt (a b : cell_key * nat) : bool :=
  default false (key_lt a.1 b.1).

Definition _sort_tree (col : str) (reverse : bool) (tree : list item) : list item :=
  let sortable := map (λ it, (_cell_key col (cell col it), iid it)) tree in
  let sorted := list_sort sortable_lt reverse sortable in
  foldl (λ t '(i, (_, i_d)), tree_move i_d i t) tree (imap (λ i e, (i, e)) sorted).

(** The fields of the window that sorting reads and writes. *)
Record Gui := {
  tree : list item;
  _sort_col : str;
  _sort_reverse : bool;
  _sort_reverse_by_col : gmap str bool
}.

Definition gui_init : Gui :=
  {| tree := []; _sort_col := "Name"; _sort_reverse := false;
     _sort_reverse_by_col := ∅ |}.


(** ** Actions: [_selected_ids] and the command builders *)

(** [tree.item(iid, "values")] *)
Definition item_values (tree : list item) (i_d : nat) : list str :=
  match list_find (λ it, iid it = i_d) tree with
  | Some (_, it) => values it
  | None => []
  end.

(** The first loop of [_selected_ids]. *)
Definition selected_raw_ids (tree : list item) (selection : list nat) : list str :=
  omap (λ i_d,
          let vals := item_values tree i_d in
          match vals !! 1 with
          | Some (c :: v) => Some (c :: v)
          | _ => None
          end)
       selection.

(** The second loop: "unique preserve order". *)
Definition unique_step (st : gset str * list str) (x : str) : gset str * list str :=
  if bool_decide (x ∉ st.1) then ({[x]} ∪ st.1, st.2 ++ [x]) else st.

Definition unique (ids : list str) : list str := (foldl unique_step (∅, []) ids).2.

Definition _selected_ids (tree : list item) (selection : list nat) : list str :=
  unique (selected_raw_ids tree selection).

(** [out] lists its elements in the order of their first occurrence in
    [ids]: when [x] is before [y] in [out], the first [x] of [ids] is
    before every [y] of [ids]. *)
Definition in_first_occurrence_order (out ids : list str) : Prop :=
  ∀ i j x y, out !! i = Some x → out !! j = Some y → i < j →
    ∃ p, ids !! p = Some x ∧ (∀ p', ids !! p' = Some x → p ≤ p')
         ∧ ∀ q, ids !! q = Some y → p < q.

(** The check boxes the builders read. *)
Record Options := {
  silent_var : bool;
  accept_var : bool;
  uninstall_source_winget_var : bool;
  include_unknown_var : bool;
  include_pinned_var : bool
}.

Definition _build_common_flags (o : Options) (exact : bool) : list str :=
  (if exact then [("--exact" : str)] else []) ++
  (if silent_var o then [("--silent" : str)] else [("--interactive" : str)]) ++
  (if accept_var o
   then [("--accept-package-agreements" : str); ("--accept-source-agreements" : str)]
   else []).

Definition install_cmd (o : Options) (pid : str) : list str :=
  [("install" : str); ("--id" : str); pid] ++ _build_common_flags o true.

Definition upgrade_cmd (o : Options) (pid : str) : list str :=
  [("upgrade" : str); ("--id" : str); pid] ++ _build_common_flags o true.

Definition uninstall_cmd (o : Options) (pid : str) : list str :=
  [("uninstall" : str); ("--id" : str); pid; ("--exact" : str)] ++
  (if uninstall_source_winget_var o then [("--source" : str); ("winget" : str)] else []) ++
  (if silent_var o then [("--silent" : str)] else [("--interactive" : str)]) ++
  (if accept_var o then [("--accept-source-agreements" : str)] else []) ++
  [("--force" : str)].

Definition pin_cmd (o : Options) (pid : str) : list str :=
  [("pin" : str); ("add" : str); ("--id" : str); pid; ("--exact" : str)] ++
  (if accept_var o then [("--accept-source-agreements" : str)] else []).

Definition unpin_cmd (o : Options) (pid : str) : list str :=
  [("pin" : str); ("remove" : str); ("--id" : str); pid; ("--exact" : str)] ++
  (if accept_var o then [("--accept-source-agreements" : str)] else []).

(** The five builders of per-target commands. *)
Definition builders (o : Options) : list (str → list str) :=
  [install_cmd o; upgrade_cmd o; uninstall_cmd o; pin_cmd o; unpin_cmd o].

(** The argument lists the five actions on the selection hand to
    [_run_many]: one per selected identifier. *)
Definition selected_cmds (build : str → list str) (tree : list item)
  (selection : list nat) : list (list str) :=
  map build (_selected_ids tree selection).

(** ** The task queue: the worker of [_run_many] *)

(** The messages put on [work_q]: [(kind, payload)]. *)
Inductive event :=
  | EvStatus (text : str)
  | EvLog (text : str)
  | EvTable (rows : list PackageRow)
  | EvAllRows (rows : list PackageRow)
  | EvDone.

Definition nl : str := ["010"%char].

(** [("status", f"{title} ({i}/{total}): winget {' '.join(cmd)}")] *)
Definition status_event (title : str) (i total : nat) (cmd : list str) : event :=
  EvStatus (title ++ " (" ++ str_of_nat i ++ "/" ++ str_of_nat total
              ++ "): winget " ++ join " " cmd).

(** [("log", f"{prefix}\n{out}\n")] with [prefix = "$ winget " + " ".join(cmd)] *)
Definition log_event (cmd : list str) (out : str) : event :=
  let prefix : str := "$ winget " ++ join " " cmd in
  EvLog (prefix ++ nl ++ out ++ nl).

Section TaskQueue.
Context {World : Type} (os : OS World).

(** The [for] loop of the worker, from command number [i]: the queue and
    the world are threaded through; an exception would end the thread and
    leave the queue as it is. *)
Fixpoint run_many_loop (title : str) (total : nat) (i : nat)
  (cmd_lists : list (list str)) (q : list event) (w : World)
  : result unit * list event * World :=
  match cmd_lists with
  | [] => (Ok (), q, w)
  | cmd :: rest =>
      let q1 := q ++ [status_event title i total cmd] in
      match run_winget os cmd None w with
      | (Raise e, w') => (Raise e, q1, w')
      | (Ok (rc, out), w') =>
          run_many_loop title total (S i) rest (q1 ++ [log_event cmd out]) w'
      end
  end.

(** The worker of [_run_many]; the refresh it schedules at its end with
    [self.after] is a run of its own and is not part of it. *)
Definition run_many_worker (title : str) (cmd_lists : list (list str))
  (refresh_after : bool) (q : list event) (w : World)
  : result unit * list event * World :=
  let total := Nat.max 1 (length cmd_lists) in
  match run_many_loop title total 1 cmd_lists q w with
  | (Raise e, q', w') => (Raise e, q', w')
  | (Ok _, q1, w') =>
      let q2 := if refresh_after then q1 ++ [EvStatus "Refreshing..."] else q1 in
      (Ok (), q2 ++ [EvDone], w')
  end.

(** What running every command in turn returns, whatever the codes are:
    the reference the worker is compared with. *)
Fixpoint run_each (cmd_lists : list (list str)) (w : World)
  : list (list str * (Z * str)) * World :=
  match cmd_lists with
  | [] => ([], w)
  | cmd :: rest =>
      match run_winget os cmd None w with
      | (Ok r, w') => let '(rs, w'') := run_each rest w' in ((cmd, r) :: rs, w'')
      | (Raise _, w') => ([], w')
      end
  end.
End TaskQueue.

Definition is_log (e : event) : bool :=
  match e with EvLog _ => true | _ => false end.

Definition is_done (e : event) : bool :=
  match e with EvDone => true | _ => false end.

(** The log message of one command and its result. *)
Definition log_of (r : list str * (Z * str)) : event := log_event r.1 r.2.2.

(** The events of the loop: for each command in turn, its status
    message and then its log message. *)
Fixpoint loop_events (title : str) (total i : nat)
  (rs : list (list str * (Z * str))) : list event :=
  match rs with
  | [] => []
  | r :: rs' => status_event title i total r.1 :: log_of r :: loop_events title total (S i) rs'
  end.

(** The events of a whole run of the worker. *)
Definition worker_events (title : str) (refresh_after : bool)
  (rs : list (list str * (Z * str))) : list event :=
  loop_events title (Nat.max 1 (length rs)) 1 rs
  ++ (if refresh_after then [EvStatus "Refreshing..."] else [])
  ++ [EvDone].

(** ** A scripted operating system, for concrete runs

    The world is the list of outcomes still to come: each process
    started takes the next one. [winget] is found at [exe] when given. *)
Definition scripted (exe : option str) : OS (list (result CompletedProcess)) :=
  {| which := λ _ _, exe;
     subprocess_run := λ w _ _,
       match w with
       | r :: w' => (r, w')
       | [] => (Raise (OtherException "no more outcomes"), [])
       end |}.

Definition exits (rc : Z) (out err : str) : result CompletedProcess :=
  Ok {| returncode := rc; stdout := Some out; stderr := Some err |}.

(** ** Tables as the specification describes them

    A header line made of labels separated by runs of white space: the
    first label, then each further label with the separator before it. *)
Fixpoint layout (first : str) (cols : list (str * str)) : str :=
  match cols with
  | [] => first
  | (sep, label) :: cols' => first ++ sep ++ layout label cols'
  end.

Definition labels_of (first : str) (cols : list (str * str)) : list str :=
  first :: map snd cols.

(** No two white-space characters in a row. *)
Fixpoint no_space_pair (s : str) : bool :=
  match s with
  | [] => true
  | c :: s' => negb (isspace c && starts_with_space s') && no_space_pair s'
  end.

(** A column label: not empty, trimmed, and without a run of two
    white-space characters (which would split it). *)
Definition label_ok (l : str) : bool :=
  negb (starts_with_space l) && negb (starts_with_space (rev l))
  && negb (bool_decide (l = [])) && no_space_pair l.

(** A separator: two or more white-space characters. *)
Definition sep_ok (sep : str) : bool :=
  (2 <=? length sep) && forallb isspace sep.

Definition cols_ok (cols : list (str * str)) : bool :=
  forallb (λ '(sep, l), sep_ok sep && label_ok l) cols.

(** ** Concrete inputs *)

(** A pin listing, with the package [A.B] listed twice. *)
Definition pin_listing : str :=
  "Name  Id   Version  Pin type" ++ nl ++
  "----------------------------" ++ nl ++
  "Foo   A.B  1.0      Pinning" ++ nl ++
  "Bar   C.D  2.0      Blocking" ++ nl ++
  "Foo   A.B  3.0      Gating".

(** A tree view with four rows: two share the identifier [A.B], one has
    no identifier. *)
Definition demo_tree : list item :=
  [ {| iid := 0; values := [("Foo" : str); ("A.B" : str); ("1.0" : str)] |};
    {| iid := 1; values := [("Bar" : str); ("C.D" : str); ("2.0" : str)] |};
    {| iid := 2; values := [("Foo (user)" : str); ("A.B" : str); ("1.0" : str)] |};
    {| iid := 3; values := [("Junk" : str); ([] : str)] |} ].

Definition demo_options : Options :=
  {| silent_var := true; accept_var := false; uninstall_source_winget_var := false;
     include_unknown_var := false; include_pinned_var := false |}.

(** The columns [_cell_key] sorts as versions. *)
Definition version_columns : list str :=
  [("Version" : str); ("Available" : str); ("PinVersion" : str)].


(** ** Orders

    What the sort needs of [<]: a strict weak order (two elements that
    are not ordered count as equal keys). A strict total order is one
    where only equal elements are not ordered. *)
Record strict_weak {A : Type} (lt : A → A → bool) : Prop := {
  sw_irrefl : ∀ a, lt a a = false;
  sw_trans : ∀ a b c, lt a b = true → lt b c = true → lt a c = true;
  sw_cotrans : ∀ a b c, lt a c = true → lt a b = true ∨ lt b c = true
}.

Record strict_total {A : Type} (lt : A → A → bool) : Prop := {
  st_irrefl : ∀ a, lt a a = false;
  st_trans : ∀ a b c, lt a b = true → lt b c = true → lt a c = true;
  st_connected : ∀ a b, lt a b = false → lt b a = false → a = b
}.

(** [a] is not after [b] for [lt]. *)
Definition not_after {A : Type} (lt : A → A → bool) (a b : A) : Prop := lt b a = false.


(** The entry of [sortable] for an item, and the comparison of two items
    through their entries. *)
Definition sort_entry (col : str) (it : item) : cell_key * nat :=
  (_cell_key col (cell col it), iid it).

Definition item_lt (col : str) (a b : item) : bool :=
  sortable_lt (sort_entry col a) (sort_entry col b).



(** [in_order names s]: the names occur in [s] one after the other,
    without overlap. *)
Inductive in_order : list str → str → Prop :=
  | in_order_nil (s : str) : in_order [] s
  | in_order_cons (before name : str) (names : list str) (rest : str) :
      in_order names rest → in_order (name :: names) (before ++ name ++ rest).

(** The last of the slices, [(name, start, end)]. *)
Definition last_slice (h : str) : option (str * nat * nat) :=
  last (build_slices (col_names h) (col_starts h (col_names h) 0)).

(** A table whose data line is longer than [LAST_END] characters. *)
Definition long_line : str := "Foo   Bar" ++ replicate LAST_END "x"%char.

Definition long_table : str :=
  "Name  Id" ++ nl ++ "--------" ++ nl ++ long_line.

(** The table of the first scenario of the specification. *)
Definition demo_table : str :=
  "Name  Id  Version" ++ nl ++ "----  --  -------" ++ nl ++ "Foo   Foo.Bar  1.0".

(** A table whose header has the label [Id] twice. *)
Definition dup_table : str :=
  "Name  Id   Id" ++ nl ++ "-------------" ++ nl ++ "Foo   Bar  Baz".

(** The lines hold the head of a table: a header line, and after it a
    line that starts with three dashes. *)
Definition table_head (lines : list str) (header_idx delim_idx : nat) : Prop :=
  header_index lines = Some header_idx
  ∧ delim_index (S header_idx) (drop (S header_idx) lines) = delim_idx
  ∧ delim_idx < length lines.

(** The line that ends the data: [ln.strip().lower().startswith("no installed package")]. *)
Definition is_summary_line (ln : str) : bool :=
  startswith "no installed package" (lower (strip ln)).

(** A separator line among the data: [ln.strip().startswith("---")]. *)
Definition is_dash_line (ln : str) : bool := startswith "---" (strip ln).

(** The three lines of a small listing, and texts that go on after them. *)
Definition listing_lines : list str :=
  [("Name  Id   Version" : str); ("------------------" : str); ("Foo   A.B  1.0" : str)].

Definition listing : str := join nl listing_lines.

Definition listing_with_summary : str :=
  join nl (listing_lines ++
             [("No installed package found matching input criteria." : str);
              ("Bar   C.D  2.0" : str)]).

Definition listing_with_dashes : str :=
  join nl (listing_lines ++ [("------------------" : str); ("Bar   C.D  2.0" : str)]).

Definition listing_two_rows : str :=
  join nl (listing_lines ++ [("Bar   C.D  2.0" : str)]).

(** ** Tables in fixed columns

    A cell followed by spaces up to the width of its column. *)
Definition pad (width : nat) (cell : str) : str :=
  cell ++ replicate (width - length cell) " "%char.

(** A data line in the columns of the header [layout first cols]: every
    cell but the last one is padded to the width of its column, which is
    the length of its label and of the separator that follows it. *)
Fixpoint render_line (first : str) (cols : list (str * str)) (cells : list str) : str :=
  match cells with
  | [] => []
  | cell :: cells' =>
      match cols with
      | [] => cell
      | (sep, label) :: cols' =>
          pad (length first + length sep) cell ++ render_line label cols' cells'
      end
  end.

(** A cell is trimmed: it neither starts nor ends with white space. *)
Definition trimmed (cell : str) : bool :=
  negb (starts_with_space cell) && negb (starts_with_space (rev cell)).

(** The cells of a line fit the columns: one trimmed cell per column,
    none longer than its column (the last one is free). *)
Fixpoint cells_fit (first : str) (cols : list (str * str)) (cells : list str) : bool :=
  match cells with
  | [] => false
  | cell :: cells' =>
      trimmed cell &&
      match cols with
      | [] => match cells' with [] => true | _ => false end
      | (sep, label) :: cols' =>
          (length cell <=? length first + length sep) && cells_fit label cols' cells'
      end
  end.

(** The cells make a data line the parser keeps: they fit the columns,
    one of them is not empty, the line is at most [LAST_END] characters
    long, and it is neither a summary line nor a line of dashes. *)
Definition data_row_ok (first : str) (cols : list (str * str)) (cells : list str) : bool :=
  cells_fit first cols cells
  && existsb (λ c, negb (bool_decide (c = []))) cells
  && (length (render_line first cols cells) <=? LAST_END)
  && negb (is_summary_line (render_line first cols cells))
  && negb (is_dash_line (render_line first cols cells)).

(** The starts of the columns of [layout first cols], when it begins at
    offset [p]. *)
Fixpoint offsets (p : nat) (first : str) (cols : list (str * str)) : list nat :=
  match cols with
  | [] => [p]
  | (sep, label) :: cols' => p :: offsets (p + length first + length sep) label cols'
  end.

(** A line of text: no line boundary in it, and not blank. *)
Definition is_line (ln : str) : bool :=
  forallb (λ c, negb (is_linebreak c)) ln && negb (bool_decide (strip ln = [])).

(** A table in fixed columns, with three labels and two data lines. *)
Definition aligned_cols : list (str * str) :=
  [(("      " : str), ("Id" : str)); (("        " : str), ("Version" : str))].

Definition aligned_rows : list (list str) :=
  [ [("Foo Bar" : str); ("Foo.Bar" : str); ("1.0" : str)];
    [("Baz" : str); ("Baz.Qux" : str); ([] : str)] ].

Definition aligned_table : str :=
  join nl (layout "Name" aligned_cols :: ("-------------------------" : str)
           :: map (render_line "Name" aligned_cols) aligned_rows).

(** The line ending of Windows: carriage return, line feed. *)
Definition crlf : str := ["013"%char; "010"%char].

(** [placed h names starts from]: each start is a place where its name
    occurs in [h], at or after [from] for the first one, and at or after
    the end of the name before it for the others. *)
Fixpoint placed (h : str) (names : list str) (starts : list nat) (from : nat) : Prop :=
  match names, starts with
  | [], [] => True
  | n :: names', s :: starts' =>
      from ≤ s ∧ take (length n) (drop s h) = n ∧ placed h names' starts' (s + length n)
  | _, _ => False
  end.

(** ** The local filter: [_filter_rows] *)

(** The text a row is searched in: its eight fields, separated by
    spaces, in lower case. *)
Definition haystack (r : PackageRow) : str :=
  lower (join " " [name r; id r; version r; available r; source r;
                   pinned r; pin_type r; pin_version r]).

Definition _filter_rows (rows : list PackageRow) (text : str) : list PackageRow :=
  let t := lower (strip text) in
  match t with
  | [] => rows
  | _ => filter (λ r, contains t (haystack r) = true) rows
  end.

(** Two records, for concrete runs of the filter. *)
Definition demo_rows : list PackageRow :=
  [ {| name := "Mozilla Firefox"; id := "Mozilla.Firefox"; version := "130.0";
       available := "131.0"; source := "winget"; pinned := "No";
       pin_type := []; pin_version := [] |};
    {| name := "Mozilla Thunderbird"; id := "Mozilla.Thunderbird"; version := "128.2";
       available := []; source := "winget"; pinned := "Yes";
       pin_type := "Pinning"; pin_version := [] |} ].

(** ** More commands *)

(** The command of [upgrade_all], once confirmed. *)
Definition upgrade_all_cmd (o : Options) : list str :=
  [("upgrade" : str); ("--all" : str)] ++
  (if include_unknown_var o then [("--include-unknown" : str)] else []) ++
  (if include_pinned_var o then [("--include-pinned" : str)] else []) ++
  _build_common_flags o false.

(** ** The operating system, with the processes it was asked to start

    [tracing os] is [os] with a record of the command lines handed to
    [subprocess.run], in the order of the calls. *)
Definition tracing {World : Type} (os : OS World) : OS (World * list (list str)) :=
  {| which := λ wt prog, which os wt.1 prog;
     subprocess_run := λ wt cmd timeout,
       let r := subprocess_run os wt.1 cmd timeout in
       (r.1, (r.2, wt.2 ++ [cmd])) |}.

(** The command line [run_winget] hands to the system in the world [w]:
    one when [winget] is found, none otherwise. *)
Definition spawned {World : Type} (os : OS World) (args : list str) (w : World)
  : list (list str) :=
  if truthy (which os w "winget")
  then [or_empty (which os w "winget") :: args] else [].

(** ** The window: [_poll_queue], [_append_log], [_set_busy],
    [_fill_table], [_apply_last_sort], [_apply_filter_only] *)

(** The tuple of values [_fill_table] gives the tree view for a record. *)
Definition row_values (r : PackageRow) : list str :=
  [name r; id r; version r; available r; source r; pinned r; pin_type r; pin_version r].














(** ** Loading: [refresh] *)



(** The command [refresh] lists the upgrades with. *)
Definition upgrades_cmd (o : Options) : list str :=
  [("upgrade" : str)] ++
  (if include_unknown_var o then [("--include-unknown" : str)] else []) ++
  (if include_pinned_var o then [("--include-pinned" : str)] else []).

Section Refresh.
Context {World : Type} (os : OS World).

(** The four messages that end each of the three listing branches of
    the worker; [shown] is the command as the log line prints it. *)
Definition listing_events (pins : gmap str row) (shown out query : str) : list event :=
  let rows := _to_rows pins (parse_winget_table out) in
  [EvLog ("$ winget " ++ shown ++ nl ++ out ++ nl);
   EvAllRows rows;
   EvTable (_filter_rows rows query);
   EvDone].

(** The worker of [refresh]: [mode] and [query] are read before it
    starts; it assigns [self.pins] (returned here) and puts its messages
    on the queue. *)
Definition refresh_worker (mode query : str) (o : Options) (q : list event) (w : World)
  : result (gmap str row) * list event * World :=
  let q1 := q ++ [EvStatus "Reading pins..."] in
  match get_pins os w with
  | (Raise e, w1) => (Raise e, q1, w1)
  | (Ok pins, w1) =>
      if bool_decide (mode = ("Search" : str)) then
        match query with
        | [] =>
            (Ok pins,
             q1 ++ [EvLog "Search mode: enter a search term."; EvTable []; EvDone], w1)
        | _ :: _ =>
            match run_winget os [("search" : str); query] None w1 with
            | (Raise e, w2) => (Raise e, q1, w2)
            | (Ok (rc, out), w2) =>
                (Ok pins, q1 ++ listing_events pins ("search " ++ query) out query, w2)
            end
        end
      else if bool_decide (mode = ("Installed" : str)) then
        match run_winget os [("list" : str)] None w1 with
        | (Raise e, w2) => (Raise e, q1, w2)
        | (Ok (rc, out), w2) =>
            (Ok pins, q1 ++ listing_events pins "list" out query, w2)
        end
      else
        let cmd := upgrades_cmd o in
        match run_winget os cmd None w1 with
        | (Raise e, w2) => (Raise e, q1, w2)
        | (Ok (rc, out), w2) =>
            (Ok pins, q1 ++ listing_events pins (join " " cmd) out query, w2)
        end
  end.
End Refresh.

(** The command line of the listing [refresh] asks for, if any. *)
Definition refresh_cmds (mode query : str) (o : Options) : list (list str) :=
  if bool_decide (mode = ("Search" : str)) then
    match query with [] => [] | _ :: _ => [[("search" : str); query]] end
  else if bool_decide (mode = ("Installed" : str)) then [[("list" : str)]]
  else [upgrades_cmd o].






(** ** Web links: [_winstall_url_for], [_wingetrun_url_for] *)

(** The bytes [urllib.parse.quote] leaves as they are when [safe] is
    empty: the ASCII letters and digits and the four marks [_.-~]. *)
Definition unreserved (b : N) : bool :=
  ((65 <=? b) && (b <=? 90) || (97 <=? b) && (b <=? 122) || (48 <=? b) && (b <=? 57)
   || (b =? 95) || (b =? 46) || (b =? 45) || (b =? 126))%N.

(** One upper-case hexadecimal digit. *)
Definition hex_digit (n : N) : ascii :=
  if (n <? 10)%N then ascii_of_N (48 + n) else ascii_of_N (55 + n).

(** The UTF-8 bytes of a character of the range 0..255. *)
Definition utf8 (c : ascii) : list N :=
  let n := code c in
  if (n <? 128)%N then [n] else [(192 + n / 64)%N; (128 + n mod 64)%N].

Definition quote_byte (b : N) : str :=
  if unreserved b then [ascii_of_N b]
  else ["%"%char; hex_digit (b / 16); hex_digit (b mod 16)].

(** What [quote] writes for one character. *)
Definition quote_char (c : ascii) : str := concat (map quote_byte (utf8 c)).

(** [urllib.parse.quote(s, safe="")] *)
Definition quote (s : str) : str := concat (map quote_char s).

(** [s.split(sep)] for a separator of one character. *)
Fixpoint split_on (sep : ascii) (s : str) : list str :=
  match s with
  | [] => [[]]
  | c :: s' =>
      if bool_decide (c = sep) then [] :: split_on sep s'
      else match split_on sep s' with
           | p :: ps => (c :: p) :: ps
           | [] => [[c]]
           end
  end.

(** The test both functions make on the trimmed identifier. *)
Definition plain_id (pkg_id : str) : bool :=
  match pkg_id with [] => false | _ :: _ => true end
  && negb (contains "\" pkg_id)
  && negb (startswith "arp\" (lower pkg_id) || startswith "msix\" (lower pkg_id)).

Definition _winstall_url_for (pkg_id pkg_name : str) : str :=
  let pkg_id := strip pkg_id in
  let pkg_name := strip pkg_name in
  if plain_id pkg_id then "https://winstall.app/apps/" ++ quote pkg_id
  else
    let q := str_or pkg_name pkg_id in
    "https://winget.run/search?query=" ++ quote q.

Definition _wingetrun_url_for (pkg_id pkg_name : str) : str :=
  let pkg_id := strip pkg_id in
  let pkg_name := strip pkg_name in
  if plain_id pkg_id
  then "https://winget.run/pkg/" ++ join "/" (map quote (split_on "."%char pkg_id))
  else
    let q := str_or pkg_name pkg_id in
    "https://winget.run/search?query=" ++ quote q.

(** The characters a link is made of: letters, digits, and the marks
    [_.-~%:/?=]. *)
Definition link_char (c : ascii) : bool :=
  unreserved (code c) || bool_decide (c ∈ ("%:/?=" : str)).

(** The value of a hexadecimal digit. *)
Definition hex_value (c : ascii) : N :=
  let n := code c in if (n <? 58)%N then (n - 48)%N else (n - 55)%N.

(** Reading back one byte written by [quote_byte]. *)
Definition read_byte (s : str) : option (N * str) :=
  match s with
  | c :: rest =>
      if bool_decide (c = "%"%char) then
        match rest with
        | h :: l :: rest' => Some ((16 * hex_value h + hex_value l)%N, rest')
        | _ => None
        end
      else Some (code c, rest)
  | [] => None
  end.

(** Reading back one character written by [quote_char]. *)
Definition read_char (s : str) : option (ascii * str) :=
  match read_byte s with
  | Some (b, rest) =>
      if (b <? 128)%N then Some (ascii_of_N b, rest)
      else match read_byte rest with
           | Some (b2, rest') => Some (ascii_of_N ((b - 192) * 64 + (b2 - 128)), rest')
           | None => None
           end
  | None => None
  end.

(** What the path of a [winget.run] page has for one character of the
    identifier: a slash for a dot, and what [quote] writes otherwise. *)
Definition path_char (c : ascii) : str :=
  if bool_decide (c = "."%char) then "/" else quote_char c.

Definition read_path_char (s : str) : option (ascii * str) :=
  match s with
  | c :: rest => if bool_decide (c = "/"%char) then Some ("."%char, rest) else read_char s
  | [] => None
  end.

(** * Properties *)

(** ** Trimming *)

Lemma reverse_eq_rev {A} (l : list A) : reverse l = rev l.
Proof. unfold reverse. by rewrite <- rev_alt. Qed.

Lemma drop_while_split (p : ascii → bool) (s : str) :
  ∃ pre, s = pre ++ drop_while p s ∧ forallb p pre = true.
Proof.
  induction s as [|c s [pre [E F]]]; simpl.
  - by exists [].
  - destruct (p c) eqn:Hc.
    + exists (c :: pre). simpl. rewrite Hc, F. split; [by f_equal | done].
    + by exists [].
Qed.

Lemma drop_while_head (p : ascii → bool) (s : str) :
  match drop_while p s with c :: _ => p c = false | [] => True end.
Proof.
  induction s as [|c s IH]; simpl; [done|].
  destruct (p c) eqn:Hc; [done|]. done.
Qed.

Lemma drop_while_id (p : ascii → bool) (s : str) :
  match s with c :: _ => p c = false | [] => True end → drop_while p s = s.
Proof. destruct s as [|c s]; simpl; [done|]. by intros ->. Qed.

Lemma forallb_rev {A} (p : A → bool) (l : list A) :
  forallb p (rev l) = forallb p l.
Proof.
  induction l as [|x l IH]; simpl; [done|].
  rewrite forallb_app, IH. simpl. rewrite andb_true_r. apply andb_comm.
Qed.

Lemma starts_with_space_false (s : str) :
  starts_with_space s = false ↔
  match s with c :: _ => isspace c = false | [] => True end.
Proof. destruct s; simpl; naive_solver. Qed.

Lemma lstrip_split (s : str) :
  ∃ pre, s = pre ++ lstrip s ∧ forallb isspace pre = true
         ∧ starts_with_space (lstrip s) = false.
Proof.
  destruct (drop_while_split isspace s) as [pre [E F]].
  exists pre. split_and!; [done..|].
  apply starts_with_space_false, drop_while_head.
Qed.

Lemma rstrip_split (s : str) :
  ∃ post, s = rstrip s ++ post ∧ forallb isspace post = true
          ∧ starts_with_space (rev (rstrip s)) = false.
Proof.
  unfold rstrip. rewrite !reverse_eq_rev.
  destruct (drop_while_split isspace (rev s)) as [pre [E F]].
  exists (rev pre). split_and!.
  - rewrite <- rev_app_distr, <- E. by rewrite rev_involutive.
  - by rewrite forallb_rev.
  - rewrite rev_involutive. apply starts_with_space_false, drop_while_head.
Qed.

Lemma rstrip_keeps_head (s : str) :
  starts_with_space s = false → starts_with_space (rstrip s) = false.
Proof.
  intros H. destruct (rstrip_split s) as [post [E _]].
  destruct (rstrip s) as [|c r] eqn:Hr; [done|].
  rewrite E in H. done.
Qed.

(** [strip] removes a run of white space at each end and nothing else,
    and what is left neither starts nor ends with white space. *)
Lemma strip_split (s : str) :
  ∃ pre post, s = pre ++ strip s ++ post
    ∧ forallb isspace pre = true ∧ forallb isspace post = true
    ∧ starts_with_space (strip s) = false
    ∧ starts_with_space (rev (strip s)) = false.
Proof.
  destruct (lstrip_split s) as [pre [E1 [F1 H1]]].
  destruct (rstrip_split (lstrip s)) as [post [E2 [F2 H2]]].
  exists pre, post. unfold strip. split_and!; try done.
  - by rewrite <- E2.
  - by apply rstrip_keeps_head.
Qed.

Lemma lstrip_id (s : str) : starts_with_space s = false → lstrip s = s.
Proof. intros H. apply drop_while_id. by apply starts_with_space_false. Qed.

Lemma rstrip_id (s : str) : starts_with_space (rev s) = false → rstrip s = s.
Proof.
  intros H. unfold rstrip. rewrite !reverse_eq_rev.
  rewrite drop_while_id; [apply rev_involutive|].
  by apply starts_with_space_false.
Qed.

Lemma strip_id (s : str) :
  starts_with_space s = false → starts_with_space (rev s) = false → strip s = s.
Proof. intros H1 H2. unfold strip. rewrite lstrip_id by done. by apply rstrip_id. Qed.

Lemma strip_idemp (s : str) : strip (strip s) = strip s.
Proof.
  destruct (strip_split s) as (pre & post & _ & _ & _ & H1 & H2).
  by apply strip_id.
Qed.

Lemma strip_nil : strip [] = [].
Proof. reflexivity. Qed.

(** ** The command runner *)

Section CommandRunnerFacts.
Context {World : Type} (os : OS World).

Lemma run_winget_ok (args : list str) (timeout : option Z) (w : World) :
  ∃ code text w', run_winget os args timeout w = (Ok (code, text), w').
Proof.
  unfold run_winget, run_winget_try.
  destruct (negb (truthy (which os w "winget"))); [by eauto|].
  destruct (subprocess_run os w _ timeout) as [[p|[|e]] w']; by eauto.
Qed.

Lemma run_winget_absent (args : list str) (timeout : option Z) (w : World) :
  truthy (which os w "winget") = false →
  run_winget os args timeout w =
    (Ok (127%Z, "winget not found in PATH. Install 'App Installer' from Microsoft Store." : str), w).
Proof. intros H. unfold run_winget. by rewrite H. Qed.

Lemma run_winget_present (args : list str) (timeout : option Z) (w : World) exe :
  which os w "winget" = Some exe → exe ≠ [] →
  run_winget os args timeout w =
    match subprocess_run os w (exe :: args) timeout with
    | (Ok p, w') => (Ok (returncode p, strip (combined_output p)), w')
    | (Raise TimeoutExpired, w') =>
        (Ok (124%Z, "Timeout running: " ++ join " " (exe :: args)), w')
    | (Raise (OtherException e), w') =>
        (Ok (1%Z, "Error running: " ++ join " " (exe :: args) ++ nl ++ e), w')
    end.
Proof.
  intros H Hne. unfold run_winget, run_winget_try. rewrite H.
  destruct exe as [|c exe]; [done|]. simpl.
  by destruct (subprocess_run os w _ timeout) as [[p|[|e]] w'].
Qed.

(** C6, as the code has it: [run_winget] returns a pair and never
    raises. When [winget] is not found it returns code 127 and a fixed
    diagnostic without starting a process; when the process times out it
    returns code 124 and a diagnostic that names the command line; on
    any other exception of the launch it returns code 1 and a text that
    ends with the description of the error. The three codes differ from
    one another and from 0; a process that ends is reported with its own
    code, whatever it is. *)
Theorem run_winget_never_raises (args : list str) (timeout : option Z) (w : World) :
  (∃ code text w', run_winget os args timeout w = (Ok (code, text), w'))
  ∧ (truthy (which os w "winget") = false →
     run_winget os args timeout w =
       (Ok (127%Z, "winget not found in PATH. Install 'App Installer' from Microsoft Store." : str), w))
  ∧ (∀ exe w', which os w "winget" = Some exe → exe ≠ [] →
       subprocess_run os w (exe :: args) timeout = (Raise TimeoutExpired, w') →
       run_winget os args timeout w =
         (Ok (124%Z, "Timeout running: " ++ join " " (exe :: args)), w'))
  ∧ (∀ exe e w', which os w "winget" = Some exe → exe ≠ [] →
       subprocess_run os w (exe :: args) timeout = (Raise (OtherException e), w') →
       run_winget os args timeout w =
         (Ok (1%Z, "Error running: " ++ join " " (exe :: args) ++ nl ++ e), w'))
  ∧ (∀ exe p w', which os w "winget" = Some exe → exe ≠ [] →
       subprocess_run os w (exe :: args) timeout = (Ok p, w') →
       ∃ text, run_winget os args timeout w = (Ok (returncode p, text), w'))
  ∧ (127 ≠ 124 ∧ 127 ≠ 1 ∧ 124 ≠ 1 ∧ 127 ≠ 0 ∧ 124 ≠ 0 ∧ 1 ≠ 0)%Z.
Proof.
  split_and!; try done.
  - apply run_winget_ok.
  - apply run_winget_absent.
  - intros exe w' H Hne Hrun. by rewrite (run_winget_present _ _ _ exe), Hrun.
  - intros exe e w' H Hne Hrun. by rewrite (run_winget_present _ _ _ exe), Hrun.
  - intros exe p w' H Hne Hrun. rewrite (run_winget_present _ _ _ exe), Hrun by done.
    by eauto.
Qed.

(** C7, as the code has it: when the process ends, the text returned is
    its standard output, followed by a newline and its standard error
    when that is not empty, trimmed of white space at BOTH ends: the
    combined text is [pre ++ text ++ post] with [pre] and [post] white
    space only, and [text] neither starts nor ends with white space. *)
Theorem run_winget_output (args : list str) (timeout : option Z) (w w' : World)
  (exe : str) (p : CompletedProcess) :
  which os w "winget" = Some exe → exe ≠ [] →
  subprocess_run os w (exe :: args) timeout = (Ok p, w') →
  let out := or_empty (stdout p) in
  let err := or_empty (stderr p) in
  let combined := if decide (err = []) then out else out ++ nl ++ err in
  ∃ text pre post,
    run_winget os args timeout w = (Ok (returncode p, text), w')
    ∧ combined = pre ++ text ++ post
    ∧ forallb isspace pre = true ∧ forallb isspace post = true
    ∧ starts_with_space text = false
    ∧ starts_with_space (rev text) = false.
Proof.
  intros H Hne Hrun out err combined.
  assert (combined_output p = combined) as Hc.
  { unfold combined_output, combined, out, err.
    destruct (stderr p) as [[|c e]|]; simpl; by rewrite ?app_nil_r. }
  destruct (strip_split combined) as (pre & post & E & F1 & F2 & H1 & H2).
  exists (strip combined), pre, post.
  rewrite (run_winget_present _ _ _ exe), Hrun, Hc by done. done.
Qed.
End CommandRunnerFacts.

Lemma run_winget_never_raises_witness :
  run_winget (scripted None) [("list" : str)] None [] =
    (Ok (127%Z, "winget not found in PATH. Install 'App Installer' from Microsoft Store." : str), [])
  ∧ run_winget (scripted (Some ("winget" : str))) [("list" : str)] (Some 5%Z)
      [Raise TimeoutExpired] =
    (Ok (124%Z, "Timeout running: winget list" : str), [])
  ∧ run_winget (scripted (Some ("winget" : str))) [("list" : str)] None
      [Raise (OtherException "denied")] =
    (Ok (1%Z, "Error running: winget list" ++ nl ++ "denied"), []).
Proof.
  split_and!.
  - destruct (run_winget_never_raises (scripted None) [("list" : str)] None [])
      as (_ & H & _).
    exact (H eq_refl).
  - destruct (run_winget_never_raises (scripted (Some ("winget" : str)))
                [("list" : str)] (Some 5%Z) [Raise TimeoutExpired])
      as (_ & _ & H & _).
    exact (H ("winget" : str) [] eq_refl ltac:(discriminate) eq_refl).
  - destruct (run_winget_never_raises (scripted (Some ("winget" : str)))
                [("list" : str)] None [Raise (OtherException "denied")])
      as (_ & _ & _ & H & _).
    exact (H ("winget" : str) ("denied" : str) [] eq_refl ltac:(discriminate) eq_refl).
Defined.

(** A process may itself end with code 127: the code returned when
    [winget] is missing is not set apart from the codes of real runs. *)
Lemma run_winget_sentinel_not_reserved :
  (run_winget (scripted None) [("list" : str)] None []).1
    = Ok (127%Z, "winget not found in PATH. Install 'App Installer' from Microsoft Store." : str)
  ∧ (run_winget (scripted (Some ("winget" : str))) [("list" : str)] None
       [exits 127 "" ""]).1
    = Ok (127%Z, [])
  ∧ (run_winget (scripted (Some ("winget" : str))) [("list" : str)] (Some 5%Z)
       [exits 124 "" ""]).1
    = Ok (124%Z, []).
Proof. split_and!; reflexivity. Qed.

Lemma run_winget_output_witness :
  ∃ text pre post,
    run_winget (scripted (Some ("winget" : str))) [("list" : str)] None
      [exits 0 " ok " "warn"] = (Ok (0%Z, text), [])
    ∧ (" ok " ++ nl ++ "warn" : str) = pre ++ text ++ post
    ∧ forallb isspace pre = true ∧ forallb isspace post = true
    ∧ starts_with_space text = false
    ∧ starts_with_space (rev text) = false.
Proof.
  apply (run_winget_output (scripted (Some ("winget" : str))) [("list" : str)] None
           [exits 0 " ok " "warn"] [] "winget"
           {| returncode := 0; stdout := Some (" ok " : str); stderr := Some ("warn" : str) |});
    [reflexivity | discriminate | reflexivity].
Defined.

(** Trimming at the end only would keep leading white space; what is
    returned has none: the two differ as soon as the output starts with
    white space. *)
Lemma run_winget_trims_leading_space :
  let p := {| returncode := 0; stdout := Some (" ok" : str); stderr := Some [] |} in
  run_winget (scripted (Some ("winget" : str))) [("list" : str)] None [Ok p]
    = (Ok (0%Z, "ok" : str), [])
  ∧ rstrip (combined_output p) = (" ok" : str)
  ∧ ("ok" : str) ≠ rstrip (combined_output p).
Proof. split_and!; [reflexivity | reflexivity | discriminate]. Qed.

(** ** The row normaliser and the pin registry *)

Lemma str_or_nil_r (a : str) : str_or a [] = a.
Proof. by destruct a. Qed.

(** C2: for every table and every pin mapping, each record [_to_rows]
    returns is marked ["Yes"] exactly when its id is a key of the
    mapping, and ["No"] otherwise; when the id is a key, the pin type and
    the pin version are read from that entry, and both are empty when it
    is not. The records are those of the rows, in order, each with the
    identifier of its row. *)
Theorem to_rows_pinned (pins : gmap str row) (table_rows : list row) (rec : PackageRow) :
  rec ∈ _to_rows pins table_rows →
  (pinned rec = ("Yes" : str) ↔ id rec ∈ dom pins)
  ∧ (pinned rec = ("No" : str) ↔ id rec ∉ dom pins)
  ∧ (∀ entry, pins !! id rec = Some entry →
       pin_type rec = get entry "Pin type" ∧ pin_version rec = get entry "Version")
  ∧ (pins !! id rec = None → pin_type rec = [] ∧ pin_version rec = [])
  ∧ map id (_to_rows pins table_rows) = map row_id table_rows.
Proof.
  intros Hin. unfold _to_rows in *.
  apply list_elem_of_fmap in Hin as (r & -> & Hr).
  unfold to_row; simpl. split_and!.
  - case_bool_decide; split; (done || by intros [=]).
  - case_bool_decide; split; (done || by intros [=]).
  - intros entry ->. done.
  - intros ->. done.
  - rewrite <- list_fmap_compose. done.
Qed.

Lemma to_rows_pinned_witness :
  let pins : gmap str row :=
    {[ ("Foo.Bar" : str) := pin_entry {[ ("Version" : str) := ("1.*" : str);
                                           ("Pin type" : str) := ("Gating" : str) ]} ]} in
  let r : row := {[ ("Name" : str) := ("Foo" : str); ("Id" : str) := ("Foo.Bar" : str) ]} in
  let rec := to_row pins r in
  (pinned rec = ("Yes" : str) ↔ id rec ∈ dom pins)
  ∧ (pinned rec = ("No" : str) ↔ id rec ∉ dom pins)
  ∧ (∀ entry, pins !! id rec = Some entry →
       pin_type rec = get entry "Pin type" ∧ pin_version rec = get entry "Version")
  ∧ (pins !! id rec = None → pin_type rec = [] ∧ pin_version rec = [])
  ∧ map id (_to_rows pins [r]) = map row_id [r].
Proof.
  intros pins r rec.
  apply (to_rows_pinned pins [r] rec).
  apply list_elem_of_here.
Defined.

Lemma pins_of_table_snoc (table : list row) (r : row) :
  pins_of_table (table ++ [r]) =
    match row_id r with
    | [] => pins_of_table table
    | _ => <[row_id r := pin_entry r]> (pins_of_table table)
    end.
Proof.
  unfold pins_of_table. rewrite foldl_app. simpl.
  rewrite str_or_nil_r. done.
Qed.

(** What [get_pins] keeps for an identifier: the entry of the last row
    that carries it; rows without identifier are skipped. *)
Lemma pins_of_table_lookup (table : list row) (pid : str) :
  pins_of_table table !! pid =
    if decide (pid = []) then None
    else pin_entry <$> last (filter (λ r, row_id r = pid) table).
Proof.
  induction table as [|r table IH] using rev_ind.
  - unfold pins_of_table. simpl. rewrite lookup_empty. by case_decide.
  - rewrite pins_of_table_snoc, filter_app.
    destruct (row_id r) as [|c i] eqn:Hid.
    + rewrite IH. case_decide; [done|].
      rewrite filter_cons_False, filter_nil, app_nil_r by congruence. done.
    + destruct (decide (c :: i = pid)) as [<-|Hne].
      * setoid_rewrite lookup_insert_eq. rewrite decide_False by done.
        rewrite filter_cons_True, filter_nil by done.
        by rewrite last_snoc.
      * setoid_rewrite lookup_insert_ne; [|done]. rewrite IH.
        rewrite filter_cons_False, filter_nil, app_nil_r by congruence. done.
Qed.

Section PinRegistryFacts.
Context {World : Type} (os : OS World).

(** C9: [get_pins] returns the empty mapping whenever the pin listing
    ends with a code other than 0; otherwise it returns a mapping with
    one entry per identifier (the keys of its listing are pairwise
    distinct), in which each identifier has the entry of the LAST raw row
    that carries it; rows with an empty identifier give no entry. *)
Theorem get_pins_spec (w w1 : World) (rc : Z) (out : str) :
  run_winget os [("pin" : str); ("list" : str)] None w = (Ok (rc, out), w1) →
  (rc ≠ 0%Z → get_pins os w = (Ok ∅, w1))
  ∧ (rc = 0%Z →
     ∃ pins : gmap str row,
       get_pins os w = (Ok pins, w1)
       ∧ NoDup (map_to_list pins).*1
       ∧ ∀ pid, pins !! pid =
           if decide (pid = []) then None
           else pin_entry <$> last (filter (λ r, row_id r = pid) (parse_winget_table out))).
Proof.
  intros Hrun. unfold get_pins. rewrite Hrun. split.
  - intros Hrc. by rewrite bool_decide_true.
  - intros ->. rewrite bool_decide_false by (intros H; by apply H).
    eexists. split_and!; [done| |].
    + apply NoDup_fst_map_to_list.
    + apply pins_of_table_lookup.
Qed.

Lemma get_pins_total (w : World) : ∃ pins w', get_pins os w = (Ok pins, w').
Proof.
  unfold get_pins.
  destruct (run_winget_ok os [("pin" : str); ("list" : str)] None w)
    as (rc & out & w' & ->).
  case_bool_decide; by eauto.
Qed.
End PinRegistryFacts.

Lemma get_pins_spec_witness :
  (0 ≠ 0 → get_pins (scripted (Some ("winget" : str))) [exits 0 pin_listing ""] = (Ok ∅, []))%Z
  ∧ (0 = 0 →
     ∃ pins : gmap str row,
       get_pins (scripted (Some ("winget" : str))) [exits 0 pin_listing ""] = (Ok pins, [])
       ∧ NoDup (map_to_list pins).*1
       ∧ ∀ pid, pins !! pid =
           if decide (pid = []) then None
           else pin_entry <$> last (filter (λ r, row_id r = pid)
                                      (parse_winget_table pin_listing)))%Z.
Proof.
  apply (get_pins_spec (scripted (Some ("winget" : str)))
           [exits 0 pin_listing ""] [] 0%Z pin_listing).
  vm_compute. reflexivity.
Defined.

(** ** The selection *)

Lemma selected_raw_ids_nonempty (tree : list item) (selection : list nat) :
  Forall (λ x, x ≠ []) (selected_raw_ids tree selection).
Proof.
  apply Forall_forall. intros x Hx. unfold selected_raw_ids in Hx.
  apply list_elem_of_omap in Hx as (i_d & _ & Hx).
  destruct (item_values tree i_d !! 1) as [[|c v]|]; by simplify_eq.
Qed.

(** The invariant of the loop "unique preserve order". *)
Lemma unique_invariant (ids : list str) :
  let st := foldl unique_step (∅, []) ids in
  st.1 = list_to_set st.2
  ∧ NoDup st.2
  ∧ (∀ x, x ∈ st.2 ↔ x ∈ ids)
  ∧ in_first_occurrence_order st.2 ids.
Proof.
  induction ids as [|z ids IH] using rev_ind; simpl.
  - split_and!; [done|constructor|done|]. intros i j x y Hx. done.
  - rewrite foldl_app. simpl.
    destruct (foldl unique_step (∅, []) ids) as [seen out].
    simpl in IH. destruct IH as (Hseen & Hnd & Hel & Hord).
    unfold unique_step. simpl.
    assert (z ∈ seen ↔ z ∈ ids) as Hz.
    { rewrite Hseen, elem_of_list_to_set. apply Hel. }
    case_bool_decide as Hnew; simpl.
    + (* a new identifier is appended *)
      assert (z ∉ out) as Hzout by (rewrite Hel, <- Hz; done).
      split_and!.
      * rewrite list_to_set_app_L, Hseen. simpl.
        by rewrite (right_id_L ∅ (∪)), (comm_L (∪)).
      * apply NoDup_app. split_and!; [done| |apply NoDup_singleton].
        intros x Hx ->%list_elem_of_singleton. done.
      * intros x. rewrite !elem_of_app, !list_elem_of_singleton, Hel. done.
      * intros i j x y Hi Hj Hij.
        assert (i < length out) as Hilt.
        { apply lookup_lt_Some in Hj. rewrite length_app in Hj. simpl in Hj. lia. }
        rewrite lookup_app_l in Hi by done.
        destruct (decide (j < length out)) as [Hjlt|Hjge].
        -- rewrite lookup_app_l in Hj by done.
           destruct (Hord i j x y Hi Hj Hij) as (p & Hp & Hfirst & Hq).
           assert (y ≠ z) as Hyz.
           { intros ->. apply Hzout. by eapply list_elem_of_lookup_2. }
           assert (p < length ids) as Hplt by (by eapply lookup_lt_Some).
           exists p. split_and!.
           ++ by rewrite lookup_app_l.
           ++ intros p' Hp'. destruct (decide (p' < length ids)); [|lia].
              rewrite lookup_app_l in Hp' by done. by apply Hfirst.
           ++ intros q Hq'. destruct (decide (q < length ids)) as [Hqlt|Hqge].
              ** rewrite lookup_app_l in Hq' by done. by apply Hq.
              ** rewrite lookup_app_r in Hq' by lia.
                 apply list_lookup_singleton_Some in Hq' as [_ ?]. congruence.
        -- rewrite lookup_app_r in Hj by lia.
           apply list_lookup_singleton_Some in Hj as [_ <-].
           assert (x ∈ ids) as Hx by (apply Hel; by eapply list_elem_of_lookup_2).
           assert (∃ p, ids !! p = Some x ∧ ∀ p', ids !! p' = Some x → p ≤ p')
             as (p & Hp & Hfirst).
           { apply list_elem_of_lookup in Hx as [p0 Hp0].
             destruct (list_find_elem_of (λ a, a = x) ids x) as [[p a] Hf];
               [by eapply list_elem_of_lookup_2|done|].
             apply list_find_Some in Hf as (Hp & -> & Hbefore).
             exists p. split; [done|]. intros p' Hp'.
             destruct (decide (p ≤ p')); [done|].
             exfalso. eapply (Hbefore p'); [done|lia|done]. }
           assert (p < length ids) as Hplt by (by eapply lookup_lt_Some).
           exists p. split_and!.
           ++ by rewrite lookup_app_l.
           ++ intros p' Hp'. destruct (decide (p' < length ids)); [|lia].
              rewrite lookup_app_l in Hp' by done. by apply Hfirst.
           ++ intros q Hq. destruct (decide (q < length ids)) as [Hqlt|Hqge]; [|lia].
              rewrite lookup_app_l in Hq by done.
              exfalso. apply Hnew, Hz. by eapply list_elem_of_lookup_2.
    + (* an identifier already seen is dropped *)
      assert (z ∈ ids) as Hzin.
      { by apply Hz. }
      split_and!; [done|done| |].
      * intros x. rewrite elem_of_app, list_elem_of_singleton, Hel.
        split; [by left|]. intros [?| ->]; done.
      * intros i j x y Hi Hj Hij.
        destruct (Hord i j x y Hi Hj Hij) as (p & Hp & Hfirst & Hq).
        assert (p < length ids) as Hplt by (by eapply lookup_lt_Some).
        exists p. split_and!.
        -- by rewrite lookup_app_l.
        -- intros p' Hp'. destruct (decide (p' < length ids)); [|lia].
           rewrite lookup_app_l in Hp' by done. by apply Hfirst.
        -- intros q Hq'. destruct (decide (q < length ids)) as [Hqlt|Hqge]; [|lia].
           rewrite lookup_app_l in Hq' by done. by apply Hq.
Qed.

Lemma filter_none {A} (P : A → Prop) `{∀ x, Decision (P x)} (l : list A) :
  (∀ x, x ∈ l → ¬ P x) → filter P l = [].
Proof.
  induction l as [|a l IH]; intros Hl; [done|].
  rewrite filter_cons_False by (apply Hl; left).
  apply IH. intros x Hx. apply Hl. by right.
Qed.

Lemma count_one_of_NoDup {A B} `{EqDecision B} (f : A → B) (ids : list A) (x : A) :
  Inj (=) (=) f → NoDup ids → x ∈ ids →
  length (filter (λ c, c = f x) (map f ids)) = 1.
Proof.
  intros Hinj Hnd Hx. induction Hnd as [|a ids Ha Hnd IH]; [by apply elem_of_nil in Hx|].
  simpl. apply elem_of_cons in Hx as [->|Hx].
  - rewrite filter_cons_True by done. simpl. f_equal.
    apply length_zero_iff_nil, filter_none.
    intros c Hc ->. apply list_elem_of_fmap in Hc as (b & Hb & Hbin).
    apply Hinj in Hb as ->. done.
  - rewrite filter_cons_False; [by apply IH|].
    intros Heq%Hinj. by subst.
Qed.

Lemma builders_inj (o : Options) (build : str → list str) :
  build ∈ builders o → Inj (=) (=) build.
Proof.
  unfold builders. rewrite !elem_of_cons, elem_of_nil.
  intros [->|[->|[->|[->|[->|[]]]]]] a b H;
    unfold install_cmd, upgrade_cmd, uninstall_cmd, pin_cmd, unpin_cmd in H;
    simpl in H; congruence.
Qed.

(** C10: the identifiers [_selected_ids] returns are not empty and
    pairwise distinct, they are exactly the non-empty identifiers of the
    selected rows, and they come in the order of their first occurrence
    in the selection; so each of the five actions on the selection builds
    exactly one command for each selected identifier, however many
    selected rows share it. *)
Theorem selected_ids_unique (tree : list item) (selection : list nat) :
  let raw := selected_raw_ids tree selection in
  let ids := _selected_ids tree selection in
  Forall (λ x, x ≠ []) ids
  ∧ NoDup ids
  ∧ (∀ x, x ∈ ids ↔ x ∈ raw)
  ∧ in_first_occurrence_order ids raw
  ∧ ∀ o build pid, build ∈ builders o → pid ∈ raw →
      length (selected_cmds build tree selection) = length ids
      ∧ length (filter (λ cmd, cmd = build pid) (selected_cmds build tree selection)) = 1.
Proof.
  intros raw ids.
  destruct (unique_invariant raw) as (_ & Hnd & Hel & Hord).
  fold (unique raw) in Hnd, Hel, Hord.
  change (unique raw) with ids in Hnd, Hel, Hord.
  split_and!; try done.
  - apply Forall_forall. intros x Hx%Hel.
    pose proof (selected_raw_ids_nonempty tree selection) as Hne.
    rewrite Forall_forall in Hne. by apply Hne.
  - intros o build pid Hb Hpid. unfold selected_cmds. split.
    + by rewrite length_map.
    + apply count_one_of_NoDup; [by eapply builders_inj|done|by apply Hel].
Qed.

Lemma selected_ids_unique_witness :
  _selected_ids demo_tree [0; 2; 1; 3] = [("A.B" : str); ("C.D" : str)]
  ∧ length (filter (λ cmd, cmd = uninstall_cmd demo_options "A.B")
              (selected_cmds (uninstall_cmd demo_options) demo_tree [0; 2; 1; 3])) = 1.
Proof.
  split; [vm_compute; reflexivity|].
  apply (selected_ids_unique demo_tree [0; 2; 1; 3]) with (o := demo_options).
  - unfold builders. do 2 apply list_elem_of_further. apply list_elem_of_here.
  - change ((("A.B" : str)) ∈ [("A.B" : str); ("A.B" : str); ("C.D" : str)]).
    apply list_elem_of_here.
Defined.

(** ** The task queue *)

Section TaskQueueFacts.
Context {World : Type} (os : OS World).

(** Every command is run, whatever the earlier ones returned. *)
Lemma run_each_all (cmd_lists : list (list str)) (w : World) :
  map fst (run_each os cmd_lists w).1 = cmd_lists.
Proof.
  revert w. induction cmd_lists as [|cmd rest IH]; intros w; simpl; [done|].
  destruct (run_winget_ok os cmd None w) as (rc & out & w' & ->).
  specialize (IH w'). destruct (run_each os rest w') as [rs w'']. simpl in *.
  by rewrite IH.
Qed.

Lemma run_many_loop_spec (title : str) (total : nat) (cmd_lists : list (list str)) :
  ∀ (i : nat) (q : list event) (w : World),
    run_many_loop os title total i cmd_lists q w =
      (Ok (), q ++ loop_events title total i (run_each os cmd_lists w).1,
       (run_each os cmd_lists w).2).
Proof.
  induction cmd_lists as [|cmd rest IH]; intros i q w; simpl.
  - by rewrite app_nil_r.
  - destruct (run_winget_ok os cmd None w) as (rc & out & w' & ->).
    rewrite IH. destruct (run_each os rest w') as [rs w'']. simpl.
    by rewrite <- !app_assoc.
Qed.

Lemma loop_events_logs (title : str) (total : nat) rs :
  ∀ i, filter (λ e, is_log e = true) (loop_events title total i rs) = map log_of rs.
Proof.
  induction rs as [|r rs IH]; intros i; simpl; [done|].
  rewrite filter_cons_False by (simpl; done).
  rewrite filter_cons_True by done. by rewrite IH.
Qed.

Lemma loop_events_no_done (title : str) (total : nat) rs :
  ∀ i, filter (λ e, is_done e = true) (loop_events title total i rs) = [].
Proof.
  induction rs as [|r rs IH]; intros i; simpl; [done|].
  rewrite !filter_cons_False by (simpl; done). apply IH.
Qed.

(** C5: the worker of [_run_many] runs every command of the list, in
    order, whatever codes the commands return (the results are those of
    running each command in turn); it never stops early; it puts exactly
    one log message per command on the queue, in the order of the
    commands, each with the command line and the output of that command;
    and it puts exactly one completion message, as the last one. *)
Theorem run_many_runs_all (title : str) (cmd_lists : list (list str))
  (refresh_after : bool) (q : list event) (w : World) :
  let rs := (run_each os cmd_lists w).1 in
  let evs := worker_events title refresh_after rs in
  map fst rs = cmd_lists
  ∧ run_many_worker os title cmd_lists refresh_after q w =
      (Ok (), q ++ evs, (run_each os cmd_lists w).2)
  ∧ filter (λ e, is_log e = true) evs = map log_of rs
  ∧ length (filter (λ e, is_log e = true) evs) = length cmd_lists
  ∧ filter (λ e, is_done e = true) evs = [EvDone]
  ∧ last evs = Some EvDone.
Proof.
  intros rs evs.
  assert (length rs = length cmd_lists) as Hlen.
  { rewrite <- (run_each_all cmd_lists w). by rewrite length_map. }
  split; [apply run_each_all|].
  unfold run_many_worker. rewrite run_many_loop_spec. fold rs.
  unfold evs, worker_events. rewrite Hlen.
  rewrite !filter_app, loop_events_logs, loop_events_no_done.
  destruct refresh_after; simpl; rewrite ?app_nil_r, ?length_map;
    split_and!;
    first [ done | by rewrite <- !app_assoc | by rewrite last_app ].
Qed.
End TaskQueueFacts.

(** Scenario 4: three uninstall commands, the second of which fails. *)
Lemma run_many_second_fails :
  let cmds := map (uninstall_cmd demo_options) [("A" : str); ("B" : str); ("C" : str)] in
  let world := [exits 0 "done A" ""; exits 1 "" "failed B"; exits 0 "done C" ""] in
  ∃ evs,
    run_many_worker (scripted (Some ("winget" : str))) "Uninstall" cmds false [] world
      = (Ok (), evs, [])
    ∧ filter (λ e, is_log e = true) evs =
        [ log_event (uninstall_cmd demo_options "A") "done A";
          log_event (uninstall_cmd demo_options "B") "failed B";
          log_event (uninstall_cmd demo_options "C") "done C" ]
    ∧ filter (λ e, is_done e = true) evs = [EvDone].
Proof.
  intros cmds world.
  destruct (run_many_runs_all (scripted (Some ("winget" : str))) "Uninstall" cmds false [] world)
    as (_ & Hrun & Hlog & _ & Hdone & _).
  exists (worker_events "Uninstall" false
            (run_each (scripted (Some ("winget" : str))) cmds world).1).
  split_and!; [exact Hrun | | exact Hdone].
  rewrite Hlog. vm_compute. reflexivity.
Defined.

(** ** Sort keys *)



(** The runs [findall_digits] returns are the digits of the string, in
    order, cut where a character that is no digit stands between them:
    each run is a non-empty string of digits, and together they are the
    digits of the string. *)
Lemma findall_digits_aux_runs (cur s : str) :
  forallb isdigit cur = true →
  Forall (λ r, r ≠ [] ∧ forallb isdigit r = true) (findall_digits_aux cur s)
  ∧ concat (findall_digits_aux cur s) = rev cur ++ filter (λ c, isdigit c = true) s.
Proof.
  assert (∀ d (t : str), forallb isdigit (d :: t) = true →
            rev (d :: t) ≠ [] ∧ forallb isdigit (rev (d :: t)) = true) as Hrun.
  { intros d t Ht. split.
    - intros H%(f_equal length). rewrite length_rev in H. done.
    - by rewrite forallb_rev. }
  revert cur. induction s as [|c s IH]; intros cur Hcur; cbn [findall_digits_aux];
    rewrite ?reverse_eq_rev.
  - rewrite filter_nil, app_nil_r.
    destruct cur as [|d cur]; [done|]. split.
    + constructor; [by apply Hrun|done].
    + cbn [concat]. by rewrite app_nil_r.
  - destruct (isdigit c) eqn:Hc.
    + destruct (IH (c :: cur)) as [IH1 IH2]; [cbn [forallb]; by rewrite Hc|].
      split; [done|]. rewrite IH2, filter_cons_True by done.
      cbn [rev]. by rewrite <- app_assoc.
    + rewrite filter_cons_False by (by rewrite Hc).
      destruct (IH []) as [IH1 IH2]; [done|].
      destruct cur as [|d cur]; [done|]. split.
      * constructor; [by apply Hrun|done].
      * cbn [concat]. by rewrite IH2.
Qed.

Lemma findall_digits_runs (s : str) :
  Forall (λ r, r ≠ [] ∧ forallb isdigit r = true) (findall_digits s)
  ∧ concat (findall_digits s) = filter (λ c, isdigit c = true) s.
Proof. by apply (findall_digits_aux_runs [] s). Qed.

Lemma cell_key_version_column (col value : str) :
  col ∈ version_columns →
  _cell_key col value = KVersion (_version_key (strip value)).
Proof. intros H. unfold _cell_key. by rewrite bool_decide_true. Qed.





(** ** Orders *)

Lemma strict_total_weak {A} (lt : A → A → bool) : strict_total lt → strict_weak lt.
Proof.
  intros [Hi Ht Hc]. split; [done..|].
  intros a b c Hac.
  destruct (lt a b) eqn:Hab; [by left|]. right.
  destruct (lt b a) eqn:Hba.
  - by apply (Ht b a c).
  - by rewrite <- (Hc a b Hab Hba).
Qed.

Lemma strict_weak_pullback {A B} (f : A → B) (lt : B → B → bool) :
  strict_weak lt → strict_weak (λ a b, lt (f a) (f b)).
Proof.
  intros [Hi Ht Hc]. split.
  - intros a. apply Hi.
  - intros a b c. apply Ht.
  - intros a b c. apply Hc.
Qed.

Lemma strict_weak_ext {A} (lt1 lt2 : A → A → bool) :
  (∀ a b, lt1 a b = lt2 a b) → strict_weak lt2 → strict_weak lt1.
Proof.
  intros E [Hi Ht Hc]. split.
  - intros a. rewrite E. apply Hi.
  - intros a b c. rewrite !E. apply Ht.
  - intros a b c. rewrite !E. apply Hc.
Qed.

Lemma sw_asym {A} (lt : A → A → bool) (a b : A) :
  strict_weak lt → lt a b = true → lt b a = false.
Proof.
  intros [Hi Ht _] Hab. destruct (lt b a) eqn:Hba; [|done].
  by rewrite <- (Hi a), (Ht a b a).
Qed.

Section SeqOrder.
Context {A : Type} (eqb ltb : A → A → bool).
Hypothesis eqb_eq : ∀ x y, eqb x y = true ↔ x = y.
Hypothesis ltb_total : strict_total ltb.

Lemma seq_lt_irrefl (a : list A) : seq_lt eqb ltb a a = false.
Proof.
  induction a as [|x a IH]; simpl; [done|].
  by rewrite (proj2 (eqb_eq x x) eq_refl).
Qed.

Lemma seq_lt_trans (a b c : list A) :
  seq_lt eqb ltb a b = true → seq_lt eqb ltb b c = true → seq_lt eqb ltb a c = true.
Proof.
  revert b c. induction a as [|x a IH]; intros [|y b] [|z c]; simpl; try done.
  destruct (eqb x y) eqn:Hxy, (eqb y z) eqn:Hyz.
  - apply eqb_eq in Hxy as ->. rewrite Hyz. apply IH.
  - apply eqb_eq in Hxy as ->. by rewrite Hyz.
  - apply eqb_eq in Hyz as ->. by rewrite Hxy.
  - intros H1 H2. pose proof (st_trans _ ltb_total _ _ _ H1 H2) as H3.
    destruct (eqb x z) eqn:Hxz; [|done].
    apply eqb_eq in Hxz as ->.
    by rewrite (st_irrefl _ ltb_total) in H3.
Qed.

Lemma seq_lt_connected (a b : list A) :
  seq_lt eqb ltb a b = false → seq_lt eqb ltb b a = false → a = b.
Proof.
  revert b. induction a as [|x a IH]; intros [|y b]; simpl; try done.
  destruct (eqb x y) eqn:Hxy.
  - apply eqb_eq in Hxy as ->. rewrite (proj2 (eqb_eq y y) eq_refl).
    intros H1 H2. f_equal. by apply IH.
  - destruct (eqb y x) eqn:Hyx.
    { apply eqb_eq in Hyx as ->. by rewrite (proj2 (eqb_eq x x) eq_refl) in Hxy. }
    intros H1 H2. pose proof (st_connected _ ltb_total _ _ H1 H2) as ->.
    by rewrite (proj2 (eqb_eq y y) eq_refl) in Hxy.
Qed.

Lemma seq_lt_total : strict_total (seq_lt eqb ltb).
Proof.
  split; [apply seq_lt_irrefl | apply seq_lt_trans | apply seq_lt_connected].
Qed.
End SeqOrder.

Lemma code_inj (x y : ascii) : code x = code y → x = y.
Proof.
  unfold code. intros H.
  by rewrite <- (ascii_N_embedding x), <- (ascii_N_embedding y), H.
Qed.

Lemma Z_ltb_total : strict_total Z.ltb.
Proof.
  split.
  - intros a. apply Z.ltb_irrefl.
  - intros a b c. rewrite !Z.ltb_lt. lia.
  - intros a b. rewrite !Z.ltb_ge. lia.
Qed.

Lemma str_lt_total : strict_total str_lt.
Proof.
  apply seq_lt_total.
  - intros x y. unfold code_eqb. rewrite N.eqb_eq. split; [apply code_inj|by intros ->].
  - split; unfold code_ltb.
    + intros a. apply N.ltb_irrefl.
    + intros a b c. rewrite !N.ltb_lt. lia.
    + intros a b. rewrite !N.ltb_ge. intros. apply code_inj. lia.
Qed.

Lemma ints_lt_total : strict_total ints_lt.
Proof. apply seq_lt_total; [apply Z.eqb_eq | apply Z_ltb_total]. Qed.

Lemma rest_lt_total : strict_total rest_lt.
Proof.
  destruct str_lt_total as [Hi Ht Hc]. split.
  - intros [a|]; simpl; [apply Hi|done].
  - intros [a|] [b|] [c|]; simpl; try done. apply Ht.
  - intros [a|] [b|]; simpl; try done. intros H1 H2. f_equal. by apply Hc.
Qed.

Lemma vk_parts_inj (a b : version_key) : vk_parts a = vk_parts b → a = b.
Proof. destruct a, b; simpl; congruence. Qed.

Lemma version_key_lt_total : strict_total version_key_lt.
Proof.
  destruct ints_lt_total as [Hi1 Ht1 Hc1], rest_lt_total as [Hi2 Ht2 Hc2].
  split.
  - intros a. unfold version_key_lt. destruct (vk_parts a) as [[d n] r].
    cbv beta iota. destruct (Z.eqb_spec d d); [|done]. simpl.
    rewrite bool_decide_true by done. simpl. apply Hi2.
  - intros a b c. unfold version_key_lt.
    destruct (vk_parts a) as [[d1 n1] r1], (vk_parts b) as [[d2 n2] r2],
      (vk_parts c) as [[d3 n3] r3].
    cbv beta iota.
    destruct (Z.eqb_spec d1 d2) as [->|H12], (Z.eqb_spec d2 d3) as [->|H23]; simpl.
    + destruct (Z.eqb_spec d3 d3); [|done]. simpl.
      destruct (decide (n1 = n2)) as [->|Hn12], (decide (n2 = n3)) as [->|Hn23];
        rewrite ?bool_decide_true, ?bool_decide_false by done; simpl;
        rewrite ?bool_decide_true, ?bool_decide_false by done; simpl; try done.
      * apply Ht2.
      * intros H1 H2. pose proof (Ht1 _ _ _ H1 H2) as H3.
        destruct (decide (n1 = n3)) as [->|Hn13];
          [by rewrite Hi1 in H3 | by rewrite bool_decide_false by done].
    + destruct (Z.eqb_spec d2 d3); [done|]. simpl. done.
    + destruct (Z.eqb_spec d1 d3); [done|]. simpl. done.
    + rewrite !Z.ltb_lt. intros H1 H2.
      destruct (Z.eqb_spec d1 d3); [lia|]. simpl. apply Z.ltb_lt. lia.
  - intros a b. unfold version_key_lt. intros H1 H2. apply vk_parts_inj. revert H1 H2.
    destruct (vk_parts a) as [[d1 n1] r1], (vk_parts b) as [[d2 n2] r2].
    cbv beta iota.
    destruct (Z.eqb_spec d1 d2) as [->|H12]; simpl.
    + destruct (Z.eqb_spec d2 d2); [|done]. simpl.
      destruct (decide (n1 = n2)) as [->|Hn12].
      * rewrite !bool_decide_true by done. simpl. intros H1 H2.
        by rewrite (Hc2 _ _ H1 H2).
      * rewrite !bool_decide_false by done. simpl. intros H1 H2.
        by destruct (Hn12 (Hc1 _ _ H1 H2)).
    + destruct (Z.eqb_spec d2 d1); [done|]. simpl. rewrite !Z.ltb_ge. lia.
Qed.

(** ** The stable sort *)

Lemma insert_sorted_perm {A} (lt : A → A → bool) (x : A) (l : list A) :
  insert_sorted lt x l ≡ₚ x :: l.
Proof.
  induction l as [|y l IH]; simpl; [done|].
  destruct (lt y x); [|done]. rewrite IH. apply Permutation_swap.
Qed.

Lemma stable_sort_perm {A} (lt : A → A → bool) (l : list A) :
  stable_sort lt l ≡ₚ l.
Proof.
  induction l as [|x l IH]; simpl; [done|].
  change (insert_sorted lt x (stable_sort lt l) ≡ₚ x :: l).
  by rewrite insert_sorted_perm, IH.
Qed.

Lemma list_sort_perm {A} (lt : A → A → bool) (reverse : bool) (l : list A) :
  list_sort lt reverse l ≡ₚ l.
Proof.
  unfold list_sort. destruct reverse; [|apply stable_sort_perm].
  rewrite <- Permutation_rev, stable_sort_perm. symmetry. apply Permutation_rev.
Qed.

(** Sorting the keys of a list is sorting the list by its keys. *)
Lemma insert_sorted_map {A B} (f : A → B) (lt : B → B → bool) (x : A) (l : list A) :
  insert_sorted lt (f x) (map f l) = map f (insert_sorted (λ a b, lt (f a) (f b)) x l).
Proof.
  induction l as [|y l IH]; simpl; [done|].
  destruct (lt (f y) (f x)); simpl; [by rewrite IH|done].
Qed.

Lemma stable_sort_map {A B} (f : A → B) (lt : B → B → bool) (l : list A) :
  stable_sort lt (map f l) = map f (stable_sort (λ a b, lt (f a) (f b)) l).
Proof.
  induction l as [|x l IH]; simpl; [done|].
  change (insert_sorted lt (f x) (stable_sort lt (map f l)) =
          map f (insert_sorted (λ a b, lt (f a) (f b)) x
                   (stable_sort (λ a b, lt (f a) (f b)) l))).
  by rewrite IH, insert_sorted_map.
Qed.

Lemma list_sort_map {A B} (f : A → B) (lt : B → B → bool) (reverse : bool) (l : list A) :
  list_sort lt reverse (map f l) = map f (list_sort (λ a b, lt (f a) (f b)) reverse l).
Proof.
  unfold list_sort. destruct reverse; [|apply stable_sort_map].
  by rewrite <- map_rev, stable_sort_map, map_rev.
Qed.

Section StableSort.
Context {A : Type} (lt : A → A → bool).
Hypothesis lt_weak : strict_weak lt.

Lemma not_after_trans (a b c : A) : not_after lt a b → not_after lt b c → not_after lt a c.
Proof.
  unfold not_after. intros Hab Hbc.
  destruct (lt c a) eqn:Hca; [|done].
  destruct (sw_cotrans _ lt_weak c b a Hca); congruence.
Qed.





Lemma insert_sorted_sorted (x : A) (l : list A) :
  StronglySorted (not_after lt) l → StronglySorted (not_after lt) (insert_sorted lt x l).
Proof.
  induction 1 as [|y l Hs IH Hy]; simpl.
  - by repeat constructor.
  - destruct (lt y x) eqn:Hyx.
    + constructor; [done|].
      rewrite Forall_forall in *. intros z Hz.
      apply (elem_of_Permutation_proper _ _ _ (insert_sorted_perm lt x l)) in Hz.
      apply elem_of_cons in Hz as [->|Hz]; [|by apply Hy].
      unfold not_after. by apply sw_asym.
    + constructor; [by constructor|].
      constructor; [done|].
      rewrite Forall_forall in *. intros z Hz.
      apply (not_after_trans x y z); [done|by apply Hy].
Qed.

Lemma stable_sort_sorted (l : list A) : StronglySorted (not_after lt) (stable_sort lt l).
Proof.
  induction l as [|x l IH]; simpl; [constructor|].
  by apply insert_sorted_sorted.
Qed.







Lemma list_sort_sorted (r : bool) (l : list A) :
  StronglySorted (not_after lt) (if r then rev (list_sort lt r l) else list_sort lt r l).
Proof.
  unfold list_sort. destruct r; [rewrite rev_involutive|]; apply stable_sort_sorted.
Qed.
End StableSort.

(** ** Sorting the tree view *)

Lemma key_lt_same_col (col a b : str) :
  is_Some (key_lt (_cell_key col a) (_cell_key col b)).
Proof.
  unfold _cell_key. repeat case_bool_decide; simpl; by eexists.
Qed.

(** For each column, the comparison of two items is a strict weak order:
    the keys of one column have one shape, and [<] is a strict total
    order on it. *)
Lemma item_lt_weak (col : str) : strict_weak (item_lt col).
Proof.
  destruct (decide (col ∈ version_columns)) as [Hv|Hv].
  { apply (strict_weak_ext _
             (λ a b, version_key_lt (_version_key (strip (cell col a)))
                                    (_version_key (strip (cell col b))))).
    - intros a b. unfold item_lt, sortable_lt, sort_entry. simpl.
      by rewrite !cell_key_version_column.
    - apply (strict_weak_pullback (λ it, _version_key (strip (cell col it)))),
        strict_total_weak, version_key_lt_total. }
  destruct (decide (col = ("Pinned" : str))) as [Hp|Hp].
  { apply (strict_weak_ext _
             (λ a b, Z.ltb (if bool_decide (lower (strip (cell col a)) = ("yes" : str))
                            then 0%Z else 1%Z)
                           (if bool_decide (lower (strip (cell col b)) = ("yes" : str))
                            then 0%Z else 1%Z))).
    - intros a b. unfold item_lt, sortable_lt, sort_entry, _cell_key. simpl.
      rewrite !(bool_decide_false (col ∈ _)) by done.
      by rewrite !(bool_decide_true (col = _)) by done.
    - apply (strict_weak_pullback
               (λ it, if bool_decide (lower (strip (cell col it)) = ("yes" : str))
                      then 0%Z else 1%Z)),
        strict_total_weak, Z_ltb_total. }
  apply (strict_weak_ext _
           (λ a b, str_lt (lower (strip (cell col a))) (lower (strip (cell col b))))).
  - intros a b. unfold item_lt, sortable_lt, sort_entry, _cell_key. simpl.
    rewrite !(bool_decide_false (col ∈ _)) by done.
    by rewrite !(bool_decide_false (col = _)) by done.
  - apply (strict_weak_pullback (λ it, lower (strip (cell col it)))),
      strict_total_weak, str_lt_total.
Qed.

Lemma tree_move_spec (done o1 o2 : list item) (x : item) :
  (∀ y, y ∈ done ++ o1 → iid y ≠ iid x) →
  tree_move (iid x) (length done) (done ++ o1 ++ x :: o2) = done ++ x :: o1 ++ o2.
Proof.
  intros Hfresh. unfold tree_move.
  assert (list_find (λ it, iid it = iid x) (done ++ o1 ++ x :: o2)
          = Some (length (done ++ o1), x)) as ->.
  { apply list_find_Some. rewrite app_assoc. split_and!.
    - by rewrite list_lookup_middle.
    - done.
    - intros j y Hj Hlt. rewrite lookup_app_l in Hj by done.
      apply Hfresh. by eapply list_elem_of_lookup_2. }
  rewrite (app_assoc done o1), delete_middle, <- app_assoc.
  by rewrite take_app_length, drop_app_length.
Qed.

(** Moving the items one by one to the places 0, 1, 2, ... in the order
    of a permutation of the tree leaves the tree in that order. *)
Lemma move_all (f : item → cell_key * nat) (rest : list item) :
  (∀ it, (f it).2 = iid it) →
  ∀ done others : list item,
    NoDup (map iid (done ++ others)) → others ≡ₚ rest →
    foldl (λ t '(i, (_, i_d)), tree_move i_d i t) (done ++ others)
          (imap (λ i e, (length done + i, e)) (map f rest))
    = done ++ rest.
Proof.
  intros Hf. induction rest as [|x rest IH]; intros done others Hnd Hperm.
  - apply Permutation_nil_r in Hperm as ->. done.
  - assert (x ∈ others) as Hx by (rewrite Hperm; left).
    apply list_elem_of_split in Hx as (o1 & o2 & ->).
    assert (∀ y, y ∈ done ++ o1 → iid y ≠ iid x) as Hfresh.
    { intros y Hy Heq. rewrite app_assoc, map_app in Hnd. simpl in Hnd.
      apply NoDup_app in Hnd as (_ & Hdis & _).
      apply (Hdis (iid y)); [by apply list_elem_of_fmap_2 | rewrite Heq; left]. }
    cbn [map imap foldl].
    destruct (f x) as [k i_d] eqn:Hfx.
    assert (i_d = iid x) as -> by (by rewrite <- Hf, Hfx).
    rewrite Nat.add_0_r, tree_move_spec by done.
    rewrite (imap_ext _ (λ i e, (length (done ++ [x]) + i, e))).
    2:{ intros i e _. simpl. rewrite length_app. simpl. f_equal. lia. }
    rewrite (cons_middle x done), app_assoc.
    rewrite IH; [by rewrite <- app_assoc| |].
    + assert ((done ++ [x]) ++ o1 ++ o2 ≡ₚ done ++ o1 ++ x :: o2) as ->; [|done].
      rewrite <- app_assoc. f_equiv. simpl. apply Permutation_middle.
    + apply (Permutation_cons_inv (a := x)).
      by rewrite <- Hperm, Permutation_middle.
Qed.

(** With distinct identifiers, [_sort_tree] leaves the items in the
    order [list.sort] gives to their entries. *)
Lemma sort_tree_eq (col : str) (reverse : bool) (t : list item) :
  NoDup (map iid t) →
  _sort_tree col reverse t = list_sort (item_lt col) reverse t.
Proof.
  intros Hnd. unfold _sort_tree.
  change (map (λ it, (_cell_key col (cell col it), iid it)) t) with (map (sort_entry col) t).
  rewrite list_sort_map.
  change (λ a b, sortable_lt (sort_entry col a) (sort_entry col b)) with (item_lt col).
  pose proof (move_all (sort_entry col) (list_sort (item_lt col) reverse t)
                (λ _, eq_refl) [] t) as H.
  simpl in H. apply H; [done|].
  symmetry. apply list_sort_perm.
Qed.



(** ** Clicks on the column headers *)







(** ** The column layout *)

Lemma in_order_before (names : list str) (before s : str) :
  in_order names s → in_order names (before ++ s).
Proof.
  destruct 1 as [s|b name names rest H]; [constructor|].
  rewrite app_assoc. by constructor.
Qed.

Lemma in_order_after (names : list str) (s after : str) :
  in_order names s → in_order names (s ++ after).
Proof.
  induction 1 as [s|b name names rest H IH]; [constructor|].
  rewrite <- !app_assoc. by constructor.
Qed.

Lemma in_order_tail (name : str) (names : list str) (s : str) :
  in_order (name :: names) s → in_order names s.
Proof.
  inversion 1 as [|b n ns rest H']; subst.
  rewrite app_assoc. by apply in_order_before.
Qed.

Lemma in_order_filter (P : str → Prop) `{∀ x, Decision (P x)} (names : list str) (s : str) :
  in_order names s → in_order (filter P names) s.
Proof.
  induction 1 as [s|b name names rest H' IH]; [constructor|].
  destruct (decide (P name)).
  - rewrite filter_cons_True by done. by constructor.
  - rewrite filter_cons_False by done.
    rewrite app_assoc. by apply in_order_before.
Qed.

Lemma in_order_strip (names : list str) (s : str) :
  in_order names s → in_order (map strip names) s.
Proof.
  induction 1 as [s|b name names rest H' IH]; simpl; [constructor|].
  destruct (strip_split name) as (pre & post & E & _).
  rewrite E at 2. rewrite <- !app_assoc, (app_assoc b pre).
  constructor. by apply in_order_before.
Qed.

(** The pieces [re.split] returns occur in the string, in order; when no
    match is being skipped, the first piece starts the string. *)
Lemma re_split_go_in_order (s : str) :
  (∃ p ps rest, re_split_go false s = p :: ps ∧ s = p ++ rest ∧ in_order ps rest)
  ∧ in_order (re_split_go true s) s.
Proof.
  induction s as [|c s [(p & ps & rest & Hp & Hs & Ho) Ht]]; simpl.
  - split.
    + exists [], [], []. split_and!; [done..|constructor].
    + apply (in_order_cons [] [] [] []). constructor.
  - assert (∃ p' ps' rest', push_char c (re_split_go false s) = p' :: ps'
              ∧ c :: s = p' ++ rest' ∧ in_order ps' rest') as Hpush.
    { exists (c :: p), ps, rest. rewrite Hp. simpl. by rewrite Hs. }
    split.
    + destruct (isspace c && starts_with_space s); [|done].
      exists [], (re_split_go true s), (c :: s). split_and!; [done..|].
      by apply (in_order_before _ [c]).
    + destruct (isspace c).
      * by apply (in_order_before _ [c]).
      * destruct Hpush as (p' & ps' & rest' & -> & -> & Ho').
        by apply (in_order_cons []).
Qed.

Lemma col_names_in_order (h : str) : in_order (col_names h) h.
Proof.
  unfold col_names, re_split_ws2.
  destruct (strip_split h) as (pre & post & E & _).
  remember (strip h) as t eqn:Ht. clear Ht. rewrite E.
  apply in_order_before, in_order_after, in_order_strip, in_order_filter.
  destruct (re_split_go_in_order t) as [(p & ps & rest & -> & Hs & Ho) _].
  rewrite Hs. by apply (in_order_cons []).
Qed.

Lemma col_names_nonempty (h : str) : Forall (λ n, n ≠ []) (col_names h).
Proof.
  unfold col_names. apply Forall_forall. intros n Hn.
  apply list_elem_of_fmap in Hn as (c & -> & Hc).
  by apply list_elem_of_filter in Hc as [? _].
Qed.

Lemma startswith_spec (p s : str) : startswith p s = true ↔ ∃ r, s = p ++ r.
Proof.
  revert s. induction p as [|a p IH]; intros s; simpl.
  - split; [by exists s|done].
  - destruct s as [|b s]; [split; [done|by intros [r ?]]|].
    rewrite andb_true_iff, bool_decide_eq_true, IH. split.
    + intros [-> [r ->]]. by exists r.
    + intros [r [= -> ->]]. split; [done|by exists r].
Qed.

(** [find_aux] stops at or before any occurrence. *)
Lemma find_aux_found (sub before after : str) (i : nat) :
  ∃ q, q ≤ length before
       ∧ find_aux sub (before ++ sub ++ after) i = Some (i + q)
       ∧ startswith sub (drop q (before ++ sub ++ after)) = true.
Proof.
  revert i. induction before as [|c before IH]; intros i.
  - exists 0. simpl.
    assert (startswith sub (sub ++ after) = true) as H
      by (apply startswith_spec; by exists after).
    split_and!; [done| |done].
    destruct sub, after; simpl in *; rewrite ?H, ?Nat.add_0_r; done.
  - destruct (startswith sub ((c :: before) ++ sub ++ after)) eqn:Hs.
    + exists 0. split_and!; [lia| |done].
      simpl in *. by rewrite Hs, Nat.add_0_r.
    + destruct (IH (S i)) as (q & Hq & Hf & Hsw).
      exists (S q). split_and!; [simpl; lia| |done].
      simpl in *. rewrite Hs, Hf. f_equal. lia.
Qed.

(** The loop that fills [starts], when the names occur in order in what
    is left of the header: every name is found, at or after
    [search_from], and each start is beyond the one before it. *)
Lemma in_order_cons_inv (name : str) (names : list str) (s : str) :
  in_order (name :: names) s →
  ∃ before rest, s = before ++ name ++ rest ∧ in_order names rest.
Proof. inversion 1; subst; eauto. Qed.

Lemma col_starts_increasing (h : str) (names : list str) :
  Forall (λ n, n ≠ []) names →
  ∀ search_from, search_from ≤ length h → in_order names (drop search_from h) →
    Forall (λ p, search_from ≤ p) (col_starts h names search_from)
    ∧ StronglySorted lt (col_starts h names search_from).
Proof.
  induction 1 as [|name names Hne _ IH]; intros from Hle Ho; cbn [col_starts].
  - split; constructor.
  - apply in_order_cons_inv in Ho as (before & rest & E & Hrest).
    destruct (find_aux_found name before rest from) as (q & Hq & Hfind & Hsw).
    assert (find h name from = Some (from + q)) as ->.
    { unfold find. destruct (Nat.ltb_spec (length h) from) as [?|_]; [lia|].
      by rewrite E. }
    apply startswith_spec in Hsw as [r Hr].
    assert (drop (from + q + length name) h = r) as Hdrop.
    { rewrite <- Nat.add_assoc, <- drop_drop, E, <- drop_drop, Hr.
      by rewrite drop_app_length. }
    assert (from + q + length name ≤ length h) as Hle'.
    { pose proof (f_equal length E) as Hlen.
      rewrite length_drop, !length_app in Hlen. lia. }
    assert (in_order names r) as Hor.
    { assert (drop q (before ++ name ++ rest)
              = drop q before ++ name ++ rest) as Hd
        by (by rewrite drop_app_le).
      rewrite Hd, app_assoc in Hr.
      apply (f_equal (drop (length name))) in Hr.
      rewrite drop_app_length, drop_app_le in Hr by (rewrite length_app; lia).
      rewrite <- Hr. by apply in_order_before. }
    destruct (IH (from + q + length name) Hle') as [Hall Hsorted].
    { by rewrite Hdrop. }
    assert (0 < length name) by (destruct name; [done|simpl; lia]).
    split.
    + constructor; [lia|]. eapply Forall_impl; [exact Hall|]. simpl. lia.
    + constructor; [done|]. eapply Forall_impl; [exact Hall|]. simpl. lia.
Qed.

Lemma col_starts_length (h : str) (names : list str) (search_from : nat) :
  length (col_starts h names search_from) = length names.
Proof.
  revert search_from. induction names as [|n names IH]; intros from; simpl; [done|].
  by rewrite IH.
Qed.

Lemma build_slices_lookup (names : list str) (starts : list nat) (i : nat) :
  build_slices names starts !! i =
    (λ name, (name, default 0 (starts !! i), default LAST_END (starts !! S i)))
      <$> names !! i.
Proof. unfold build_slices. by rewrite list_lookup_imap. Qed.

Lemma build_slices_names (names : list str) (starts : list nat) :
  map (λ sl, sl.1.1) (build_slices names starts) = names.
Proof.
  apply list_eq. intros i.
  rewrite list_lookup_fmap, build_slices_lookup.
  by destruct (names !! i).
Qed.

Lemma slice_to_end (ln : str) (start : nat) :
  length ln ≤ LAST_END → slice ln start LAST_END = drop start ln.
Proof.
  intros Hlen. unfold slice. apply take_ge. rewrite length_drop. lia.
Qed.

Lemma strongly_sorted_lookup (l : list nat) (i j a b : nat) :
  StronglySorted lt l → i < j → l !! i = Some a → l !! j = Some b → a < b.
Proof.
  intros Hs. revert i j. induction Hs as [|x l Hs IH Hx]; intros i j Hij Ha Hb; [done|].
  destruct j as [|j]; [lia|]. simpl in Hb.
  destruct i as [|i]; simpl in Ha.
  - simplify_eq. rewrite Forall_forall in Hx. apply Hx.
    by eapply list_elem_of_lookup_2.
  - apply (IH i j); [lia|done..].
Qed.

(** C4, as the code has it: for every header line, the starts of the
    columns are strictly increasing (so non-decreasing), there is one per
    column name, each column's range ends where the next one starts, and
    the range of the last column ends at offset 10000: a data line of at
    most 10000 characters is never cut by the last column's slice. *)
Theorem column_layout (h : str) :
  let names := col_names h in
  let starts := col_starts h names 0 in
  let slices := build_slices names starts in
  length starts = length names
  ∧ StronglySorted lt starts
  ∧ (∀ i j a b, i ≤ j → starts !! i = Some a → starts !! j = Some b → a ≤ b)
  ∧ (∀ i name start end_, slices !! i = Some (name, start, end_) →
       names !! i = Some name ∧ starts !! i = Some start
       ∧ end_ = default LAST_END (starts !! S i))
  ∧ (∀ name start end_, last slices = Some (name, start, end_) →
       end_ = LAST_END ∧ Z.of_nat LAST_END = 10000%Z
       ∧ ∀ ln, length ln ≤ LAST_END → slice ln start end_ = drop start ln).
Proof.
  intros names starts slices.
  assert (length starts = length names) as Hlen by apply col_starts_length.
  assert (StronglySorted lt starts) as Hsorted.
  { apply col_starts_increasing; [apply col_names_nonempty | lia |].
    rewrite drop_0. apply col_names_in_order. }
  assert (∀ i name start end_, slices !! i = Some (name, start, end_) →
            names !! i = Some name ∧ starts !! i = Some start
            ∧ end_ = default LAST_END (starts !! S i)) as Hslice.
  { intros i name start end_. unfold slices. rewrite build_slices_lookup.
    destruct (names !! i) as [n|] eqn:Hn; [|done]. simpl. intros [= -> <- <-].
    split_and!; [done| |done].
    destruct (lookup_lt_is_Some_2 starts i) as [a ->]; [|done].
    rewrite Hlen. by eapply lookup_lt_Some. }
  split_and!; [done|done| |done|].
  - intros i j a b Hij Ha Hb.
    destruct (decide (i = j)) as [->|Hne]; [by simplify_eq|].
    apply Nat.lt_le_incl.
    apply (strongly_sorted_lookup starts i j a b); [done|lia|done..].
  - intros name start end_ Hlast. rewrite last_lookup in Hlast.
    destruct (Hslice _ _ _ _ Hlast) as (Hn & Hs & ->).
    assert (length slices = length starts) as Hls.
    { unfold slices, build_slices. by rewrite length_imap. }
    assert (starts !! S (pred (length slices)) = None) as ->.
    { apply lookup_ge_None. apply lookup_lt_Some in Hs. lia. }
    split_and!; [done|reflexivity|]. intros ln. apply slice_to_end.
Qed.

Lemma column_layout_witness :
  col_starts "Name  Id  Version" (col_names "Name  Id  Version") 0 = [0; 6; 10]
  ∧ last_slice "Name  Id  Version" = Some (("Version" : str), 10, LAST_END)
  ∧ slice "Foo   Foo.Bar  1.0" 10 LAST_END = drop 10 ("Foo   Foo.Bar  1.0" : str).
Proof.
  destruct (column_layout "Name  Id  Version") as (_ & _ & _ & _ & Hlast).
  split_and!; [vm_compute; reflexivity | vm_compute; reflexivity |].
  apply (Hlast ("Version" : str) 10 LAST_END); [vm_compute; reflexivity|].
  vm_compute. lia.
Defined.

(** The last column's range ends at offset 10000: a longer data line is
    cut there, and what is beyond is lost. *)
Lemma last_column_cut_at_10000 :
  last_slice "Name  Id" = Some (("Id" : str), 6, LAST_END)
  ∧ length long_line = LAST_END + 9
  ∧ length (slice long_line 6 LAST_END) = LAST_END - 6
  ∧ length (drop 6 long_line) = LAST_END + 3
  ∧ slice long_line 6 LAST_END ≠ drop 6 long_line
  ∧ map (λ r, length (get r "Id")) (parse_winget_table long_table) = [LAST_END - 6].
Proof.
  assert (length (slice long_line 6 LAST_END) = LAST_END - 6) as H1
    by (vm_compute; reflexivity).
  assert (length (drop 6 long_line) = LAST_END + 3) as H2
    by (vm_compute; reflexivity).
  split_and!; [vm_compute; reflexivity | vm_compute; reflexivity | exact H1 | exact H2
               | | vm_compute; reflexivity].
  intros E. rewrite E, H2 in H1.
  apply (f_equal (λ n, n - LAST_END)) in H1. revert H1. vm_compute. discriminate.
Qed.

(** ** The column names of a well-formed header *)

Lemma starts_with_space_app (a b : str) :
  a ≠ [] → starts_with_space (a ++ b) = starts_with_space a.
Proof. by destruct a. Qed.

Lemma foldr_push_char (l p : str) (ps : list str) :
  foldr push_char (p :: ps) l = (l ++ p) :: ps.
Proof. induction l as [|c l IH]; simpl; [done|]. by rewrite IH. Qed.

(** A label is read as one piece. *)
Lemma re_split_label (l : str) :
  no_space_pair l = true → starts_with_space (rev l) = false →
  ∀ s, re_split_go false (l ++ s) = foldr push_char (re_split_go false s) l.
Proof.
  induction l as [|c l IH]; intros Hpair Hlast s; [done|].
  simpl in Hpair. apply andb_true_iff in Hpair as [Hc Hpair].
  cbn [app re_split_go foldr].
  assert (isspace c && starts_with_space (l ++ s) = false) as ->.
  { destruct l as [|d l]; simpl in *.
    - by rewrite Hlast.
    - by apply negb_true_iff in Hc. }
  destruct l as [|d l]; [done|].
  rewrite IH; [done|done|].
  simpl in Hlast. rewrite starts_with_space_app in Hlast; [done|].
  intros H%(f_equal length). rewrite length_app in H. simpl in H. lia.
Qed.

Lemma re_split_skip (ws s : str) :
  forallb isspace ws = true → starts_with_space s = false →
  re_split_go true (ws ++ s) = re_split_go false s.
Proof.
  intros Hws Hs. induction ws as [|c ws IH]; simpl in *.
  - destruct s as [|c s]; [done|]. simpl in *. by rewrite Hs.
  - apply andb_true_iff in Hws as [-> Hws]. by apply IH.
Qed.

(** A separator ends the piece before it. *)
Lemma re_split_sep (sep s : str) :
  sep_ok sep = true → starts_with_space s = false →
  re_split_go false (sep ++ s) = [] :: re_split_go false s.
Proof.
  unfold sep_ok. intros [Hlen Hws]%andb_true_iff Hs.
  destruct sep as [|a [|b sep]]; try done.
  cbn [forallb] in Hws. apply andb_true_iff in Hws as [Ha Hws].
  pose proof Hws as Hws'. apply andb_true_iff in Hws' as [Hb _].
  change ((a :: b :: sep) ++ s) with (a :: (b :: sep) ++ s).
  cbn [re_split_go].
  assert (starts_with_space ((b :: sep) ++ s) = true) as -> by done.
  rewrite Ha. cbn [andb]. f_equal.
  by apply (re_split_skip (b :: sep) s).
Qed.

Lemma label_ok_spec (l : str) :
  label_ok l = true ↔
  starts_with_space l = false ∧ starts_with_space (rev l) = false
  ∧ l ≠ [] ∧ no_space_pair l = true.
Proof.
  unfold label_ok. rewrite !andb_true_iff, !negb_true_iff, bool_decide_eq_false.
  naive_solver.
Qed.

Lemma label_ok_strip (l : str) : label_ok l = true → strip l = l ∧ l ≠ [].
Proof. intros (H1 & H2 & H3 & _)%label_ok_spec. split; [by apply strip_id|done]. Qed.

Lemma cols_ok_cons (sep l : str) (cols : list (str * str)) :
  cols_ok ((sep, l) :: cols) = true ↔
  sep_ok sep = true ∧ label_ok l = true ∧ cols_ok cols = true.
Proof. unfold cols_ok. simpl. rewrite !andb_true_iff. naive_solver. Qed.

Lemma layout_ends (first : str) (cols : list (str * str)) :
  label_ok first = true → cols_ok cols = true →
  layout first cols ≠ []
  ∧ starts_with_space (layout first cols) = false
  ∧ starts_with_space (rev (layout first cols)) = false.
Proof.
  revert first. induction cols as [|[sep l] cols IH]; intros first Hf Hc; simpl.
  - apply label_ok_spec in Hf. naive_solver.
  - apply cols_ok_cons in Hc as (Hsep & Hl & Hc).
    destruct (IH l Hl Hc) as (Hne & _ & Hlast).
    apply label_ok_spec in Hf as (Hhead & _ & Hfne & _).
    split_and!.
    + by destruct first.
    + by rewrite starts_with_space_app.
    + rewrite !rev_app_distr, <- app_assoc. rewrite starts_with_space_app; [done|].
      intros H%(f_equal (@rev ascii)). rewrite rev_involutive in H. done.
Qed.

Lemma re_split_layout (first : str) (cols : list (str * str)) :
  label_ok first = true → cols_ok cols = true →
  re_split_go false (layout first cols) = labels_of first cols.
Proof.
  revert first. induction cols as [|[sep l] cols IH]; intros first Hf Hc; simpl.
  - apply label_ok_spec in Hf as (_ & Hlast & _ & Hpair).
    rewrite <- (app_nil_r first) at 1.
    rewrite re_split_label by done. simpl.
    by rewrite foldr_push_char, app_nil_r.
  - apply cols_ok_cons in Hc as (Hsep & Hl & Hc).
    destruct (layout_ends l cols Hl Hc) as (_ & Hhead & _).
    apply label_ok_spec in Hf as (_ & Hlast & _ & Hpair).
    rewrite re_split_label, re_split_sep by done.
    rewrite foldr_push_char, app_nil_r. unfold labels_of in IH.
    by rewrite IH.
Qed.

Lemma labels_ok (first : str) (cols : list (str * str)) :
  label_ok first = true → cols_ok cols = true →
  Forall (λ l, label_ok l = true) (labels_of first cols).
Proof.
  intros Hf Hc. constructor; [done|].
  induction cols as [|[sep l] cols IH]; simpl; [constructor|].
  apply cols_ok_cons in Hc as (_ & Hl & Hc). constructor; [done|by apply IH].
Qed.

(** The names the parser reads in a well-formed header are its labels. *)
Lemma col_names_layout (first : str) (cols : list (str * str)) :
  label_ok first = true → cols_ok cols = true →
  col_names (layout first cols) = labels_of first cols.
Proof.
  intros Hf Hc. unfold col_names, re_split_ws2.
  destruct (layout_ends first cols Hf Hc) as (_ & Hhead & Hlast).
  rewrite strip_id, re_split_layout by done.
  pose proof (labels_ok first cols Hf Hc) as Hall.
  induction Hall as [|l ls Hl _ IH]; [done|].
  destruct (label_ok_strip l Hl) as [Hs Hne].
  rewrite filter_cons_True by (by rewrite Hs).
  simpl. by rewrite Hs, IH.
Qed.

(** ** The rows of the parser *)

Lemma make_row_dom (slices : list (str * nat * nat)) (ln : str) :
  dom (make_row slices ln) = list_to_set (map (λ sl, sl.1.1) slices).
Proof.
  unfold make_row.
  assert (∀ r : row,
            dom (foldl (λ (r : row) '(name, start, end_),
                          <[name := strip (slice ln start end_)]> r) r slices)
            = list_to_set (map (λ sl, sl.1.1) slices) ∪ dom r) as H.
  { induction slices as [|[[name start] end_] slices IH]; intros r; simpl.
    - by rewrite (left_id_L ∅ (∪)).
    - rewrite IH, dom_insert_L. set_solver. }
  by rewrite H, dom_empty_L, (right_id_L ∅ (∪)).
Qed.

Lemma parse_rows_elem (slices : list (str * nat * nat)) (lns : list str) (r : row) :
  r ∈ parse_rows slices lns → ∃ ln, ln ∈ lns ∧ r = make_row slices ln.
Proof.
  induction lns as [|ln lns IH]; cbn [parse_rows]; [by intros ?%elem_of_nil|].
  destruct (startswith "no installed package" (lower (strip ln)));
    [by intros ?%elem_of_nil|].
  assert (r ∈ parse_rows slices lns → ∃ ln0, ln0 ∈ ln :: lns ∧ r = make_row slices ln0)
    as Hrest.
  { intros (ln0 & Hin & ->)%IH. exists ln0. split; [by right|done]. }
  destruct (startswith "---" (strip ln)); [done|].
  destruct (any_value (make_row slices ln)); [|done].
  intros [->|Hin]%elem_of_cons; [|by apply Hrest].
  exists ln. split; [left|done].
Qed.

Lemma header_index_from_lookup (lines : list str) (k i : nat) :
  header_index_from k lines = Some i →
  k ≤ i ∧ ∃ h, lines !! (i - k) = Some h ∧ is_header h = true.
Proof.
  revert k. induction lines as [|ln lines IH]; intros k; simpl; [done|].
  destruct (is_header ln) eqn:Hh.
  - intros [= <-]. split; [done|]. exists ln. by rewrite Nat.sub_diag.
  - intros (Hle & h & Hl & Hhh)%IH. split; [lia|]. exists h.
    by replace (i - k) with (S (i - S k)) by lia.
Qed.

(** The keys of every row are the column names read in the header. *)
Lemma parse_winget_table_keys (output : str) (r : row) :
  r ∈ parse_winget_table output →
  ∃ header_idx h,
    header_index (text_lines output) = Some header_idx
    ∧ text_lines output !! header_idx = Some h
    ∧ is_header h = true
    ∧ dom r = list_to_set (col_names h).
Proof.
  unfold parse_winget_table.
  destruct (text_lines output) as [|l0 ls] eqn:Hlines; [by intros ?%elem_of_nil|].
  destruct (header_index (l0 :: ls)) as [hi|] eqn:Hhi; [|by intros ?%elem_of_nil].
  destruct (length (l0 :: ls) <=? _); [by intros ?%elem_of_nil|].
  destruct (header_index_from_lookup _ _ _ Hhi) as (_ & h & Hh & His).
  rewrite Nat.sub_0_r in Hh. rewrite Hh. cbn [default].
  unfold Datatypes.id.
  destruct (col_names h) as [|n ns] eqn:Hn; [by intros ?%elem_of_nil|].
  intros (ln & _ & ->)%parse_rows_elem.
  exists hi, h. repeat (split; [done|]).
  by rewrite make_row_dom, build_slices_names, Hn.
Qed.

Lemma size_list_to_set_le (l : list str) :
  size (list_to_set l : gset str) ≤ length l.
Proof.
  induction l as [|a l IH]; cbn [list_to_set length].
  - by rewrite size_empty.
  - rewrite size_union_alt, size_singleton.
    assert (size ((list_to_set l : gset str) ∖ {[a]}) ≤ size (list_to_set l : gset str))
      by apply subseteq_size, subseteq_difference_l, reflexivity.
    lia.
Qed.

(** C1, as the code has it: when the header line of the text is made of
    N labels (non-empty, trimmed, without a run of two white-space
    characters) separated by runs of two or more white-space characters,
    every row the parser returns has as keys exactly the labels of the
    header; it has exactly N keys when the N labels are pairwise
    distinct, and fewer otherwise. *)
Theorem parse_winget_table_columns (output : str) (header_idx : nat)
  (first : str) (cols : list (str * str)) (r : row) :
  header_index (text_lines output) = Some header_idx →
  text_lines output !! header_idx = Some (layout first cols) →
  label_ok first = true → cols_ok cols = true →
  r ∈ parse_winget_table output →
  dom r = list_to_set (labels_of first cols)
  ∧ (∀ l, l ∈ labels_of first cols ↔ is_Some (r !! l))
  ∧ size (dom r) ≤ length (labels_of first cols)
  ∧ (NoDup (labels_of first cols) → size (dom r) = length (labels_of first cols)).
Proof.
  intros Hidx Hline Hf Hc Hr.
  apply parse_winget_table_keys in Hr as (hi & h & Hhi & Hh & _ & Hdom).
  rewrite Hidx in Hhi. injection Hhi as <-.
  rewrite Hline in Hh. injection Hh as <-.
  rewrite col_names_layout in Hdom by done.
  split_and!.
  - done.
  - intros l. by rewrite <- elem_of_dom, Hdom, elem_of_list_to_set.
  - rewrite Hdom. apply size_list_to_set_le.
  - intros Hnd. rewrite Hdom. by apply size_list_to_set.
Qed.

Lemma parse_winget_table_columns_witness :
  length (parse_winget_table demo_table) = 1
  ∧ ∀ r, r ∈ parse_winget_table demo_table →
      dom r = list_to_set [("Name" : str); ("Id" : str); ("Version" : str)]
      ∧ size (dom r) = 3.
Proof.
  split; [vm_compute; reflexivity|]. intros r Hr.
  destruct (parse_winget_table_columns demo_table 0 "Name"
              [(("  " : str), ("Id" : str)); (("  " : str), ("Version" : str))] r)
    as (Hdom & _ & _ & Hsize);
    [vm_compute; reflexivity | vm_compute; reflexivity | vm_compute; reflexivity
    | vm_compute; reflexivity | exact Hr |].
  split; [exact Hdom|]. apply Hsize.
  apply (bool_decide_unpack _). vm_compute. exact I.
Defined.

(** A header with the label [Id] twice has three labels, and its rows
    have two keys. *)
Lemma duplicate_label_one_key :
  header_index (text_lines dup_table) = Some 0
  ∧ text_lines dup_table !! 0
    = Some (layout "Name" [(("  " : str), ("Id" : str)); (("   " : str), ("Id" : str))])
  ∧ label_ok "Name" = true
  ∧ cols_ok [(("  " : str), ("Id" : str)); (("   " : str), ("Id" : str))] = true
  ∧ length (labels_of "Name" [(("  " : str), ("Id" : str)); (("   " : str), ("Id" : str))]) = 3
  ∧ map (λ r, size (dom r)) (parse_winget_table dup_table) = [2]
  ∧ map (λ r, (get r "Name", get r "Id")) (parse_winget_table dup_table)
    = [(("Foo" : str), ("Baz" : str))].
Proof. split_and!; vm_compute; reflexivity. Qed.

(** ** Concrete runs *)

(** The table of the first scenario: the data line is not aligned with
    its header, and the cells are cut at the offsets of the header. *)
Example parse_demo_table :
  map (λ r, (get r "Name", get r "Id", get r "Version")) (parse_winget_table demo_table)
  = [(("Foo" : str), ("Foo." : str), ("Bar  1.0" : str))].
Proof. vm_compute. reflexivity. Qed.

Example parse_no_header : parse_winget_table "nothing to see here" = [].
Proof. vm_compute. reflexivity. Qed.

Example splitlines_crlf :
  splitlines ("a" ++ ["013"; "010"]%char ++ "b" ++ nl ++ nl ++ "c" ++ nl)
  = [("a" : str); ("b" : str); ([] : str); ("c" : str)].
Proof. reflexivity. Qed.

Example re_split_example :
  re_split_ws2 "a  b c   d  " = [("a" : str); ("b c" : str); ("d" : str); ([] : str)].
Proof. reflexivity. Qed.

Example pins_of_listing :
  let pins := pins_of_table (parse_winget_table pin_listing) in
  (λ e, (get e "Version", get e "Pin type")) <$> pins !! ("A.B" : str)
    = Some (("3.0" : str), ("Gating" : str))
  ∧ (λ e, (get e "Version", get e "Pin type")) <$> pins !! ("C.D" : str)
    = Some (("2.0" : str), ("Blocking" : str))
  ∧ size pins = 2.
Proof. split_and!; vm_compute; reflexivity. Qed.

(** * More of the parser *)

Lemma header_index_from_none (lines : list str) (k : nat) :
  (∀ ln, ln ∈ lines → is_header ln = false) → header_index_from k lines = None.
Proof.
  revert k. induction lines as [|ln lines IH]; intros k Hno; simpl; [done|].
  rewrite (Hno ln) by left. apply IH. intros l Hl. apply Hno. by right.
Qed.

Lemma delim_index_none (rest : list str) (k : nat) :
  (∀ ln, ln ∈ rest → re_match_dash_prefix (strip ln) = false) →
  delim_index k rest = k + length rest.
Proof.
  revert k. induction rest as [|ln rest IH]; intros k Hno; simpl; [lia|].
  assert (re_match_dash_prefix (strip ln) = false) as Hp by (apply Hno; left).
  assert (re_match_dash_line (strip ln) = false) as ->.
  { unfold re_match_dash_line. unfold re_match_dash_prefix in Hp. by rewrite Hp. }
  rewrite Hp, IH; [lia|]. intros l Hl. apply Hno. by right.
Qed.

(** X1. Text without a header line, or with a header line that no line
    starting with three dashes follows, gives no rows (and no error):
    the empty text, and any text with no line that has [Id] and [Name]
    or [Package], are such texts. *)
Theorem parse_winget_table_nothing (output : str) :
  (∀ ln, ln ∈ text_lines output → is_header ln = false)
  ∨ (∃ header_idx, header_index (text_lines output) = Some header_idx
       ∧ ∀ ln, ln ∈ drop (S header_idx) (text_lines output) →
           re_match_dash_prefix (strip ln) = false) →
  parse_winget_table output = [].
Proof.
  unfold parse_winget_table.
  destruct (text_lines output) as [|l0 ls] eqn:Hlines; [done|].
  intros [Hno|(hi & Hhi & Hno)].
  - unfold header_index. by rewrite header_index_from_none.
  - rewrite Hhi, delim_index_none by done.
    destruct (header_index_from_lookup _ _ _ Hhi) as (_ & h & Hh & _).
    apply lookup_lt_Some in Hh. rewrite Nat.sub_0_r in Hh.
    rewrite length_drop.
    destruct (Nat.leb_spec (length (l0 :: ls)) (S hi + (length (l0 :: ls) - S hi)));
      [done|lia].
Qed.

Lemma parse_winget_table_nothing_witness :
  parse_winget_table [] = []
  ∧ parse_winget_table ("Windows Package Manager" ++ nl ++ "No package found.") = []
  ∧ parse_winget_table ("Name  Id  Version" ++ nl ++ "Foo   Foo.Bar  1.0") = [].
Proof.
  split_and!.
  - apply (parse_winget_table_nothing []). left. intros ln Hln.
    vm_compute in Hln. by apply elem_of_nil in Hln.
  - apply (parse_winget_table_nothing ("Windows Package Manager" ++ nl ++ "No package found.")).
    left. intros ln Hln.
    change (text_lines _) with [("Windows Package Manager" : str); ("No package found." : str)] in Hln.
    apply elem_of_cons in Hln as [->|Hln]; [reflexivity|].
    apply list_elem_of_singleton in Hln as ->. reflexivity.
  - apply (parse_winget_table_nothing ("Name  Id  Version" ++ nl ++ "Foo   Foo.Bar  1.0")).
    right. exists 0. split; [reflexivity|]. intros ln Hln.
    change (drop 1 (text_lines _)) with [("Foo   Foo.Bar  1.0" : str)] in Hln.
    apply list_elem_of_singleton in Hln as ->. reflexivity.
Defined.

Lemma make_row_values (slices : list (str * nat * nat)) (ln : str) (k v : str) :
  make_row slices ln !! k = Some v →
  ∃ start end_, (k, start, end_) ∈ slices ∧ v = strip (slice ln start end_).
Proof.
  unfold make_row.
  assert (∀ r : row,
            foldl (λ (r : row) '(name, start, end_),
                     <[name := strip (slice ln start end_)]> r) r slices !! k = Some v →
            r !! k = Some v
            ∨ ∃ start end_, (k, start, end_) ∈ slices ∧ v = strip (slice ln start end_)) as H.
  { induction slices as [|[[name start] end_] slices IH]; intros r; simpl; [by left|].
    intros [Hr|(s & e & Hin & ->)]%IH.
    - destruct (decide (name = k)) as [->|Hne].
      + rewrite lookup_insert_eq in Hr. injection Hr as <-.
        right. exists start, end_. split; [left|done].
      + rewrite lookup_insert_ne in Hr by done. by left.
    - right. exists s, e. split; [by right|done]. }
  intros [Hr|Hr]%H; [by rewrite lookup_empty in Hr|done].
Qed.

Lemma parse_rows_kept (slices : list (str * nat * nat)) (lns : list str) (r : row) :
  r ∈ parse_rows slices lns →
  ∃ ln, ln ∈ lns ∧ r = make_row slices ln ∧ any_value r = true
        ∧ startswith "---" (strip ln) = false
        ∧ startswith "no installed package" (lower (strip ln)) = false.
Proof.
  induction lns as [|ln lns IH]; cbn [parse_rows]; [by intros ?%elem_of_nil|].
  destruct (startswith "no installed package" (lower (strip ln))) eqn:Hstop;
    [by intros ?%elem_of_nil|].
  assert (r ∈ parse_rows slices lns →
          ∃ ln0, ln0 ∈ ln :: lns ∧ r = make_row slices ln0 ∧ any_value r = true
                 ∧ startswith "---" (strip ln0) = false
                 ∧ startswith "no installed package" (lower (strip ln0)) = false)
    as Hrest.
  { intros (ln0 & Hin & H)%IH. exists ln0. split; [by right|done]. }
  destruct (startswith "---" (strip ln)) eqn:Hdash; [done|].
  destruct (any_value (make_row slices ln)) eqn:Hany; [|done].
  intros [->|Hin]%elem_of_cons; [|by apply Hrest].
  exists ln. split_and!; [left|done..].
Qed.

Lemma parse_winget_table_kept (output : str) (r : row) :
  r ∈ parse_winget_table output →
  ∃ slices ln, ln ∈ text_lines output ∧ r = make_row slices ln ∧ any_value r = true
               ∧ startswith "---" (strip ln) = false.
Proof.
  unfold parse_winget_table.
  destruct (text_lines output) as [|l0 ls] eqn:Hlines; [by intros ?%elem_of_nil|].
  destruct (header_index (l0 :: ls)) as [hi|] eqn:Hhi; [|by intros ?%elem_of_nil].
  destruct (length (l0 :: ls) <=? _); [by intros ?%elem_of_nil|].
  destruct (col_names _) as [|n ns]; [by intros ?%elem_of_nil|].
  intros (ln & Hin & -> & Hany & Hdash & _)%parse_rows_kept.
  eexists _, ln. split_and!; [|done..].
  by eapply subseteq_drop.
Qed.

(** X2. Every row the parser returns has at least one value that is not
    empty, no value of a row starts or ends with white space, and a row
    always comes from a line of the text that does not start with three
    dashes: rows of blanks and separator rows are never returned. *)
Theorem parse_winget_table_rows_trimmed (output : str) (r : row) :
  r ∈ parse_winget_table output →
  (∃ k v, r !! k = Some v ∧ v ≠ [])
  ∧ (∀ k v, r !! k = Some v →
       strip v = v ∧ starts_with_space v = false ∧ starts_with_space (rev v) = false)
  ∧ ∃ ln, ln ∈ text_lines output ∧ startswith "---" (strip ln) = false
          ∧ ∀ k v, r !! k = Some v → ∃ a b, v = strip (slice ln a b).
Proof.
  intros (slices & ln & Hln & -> & Hany & Hdash)%parse_winget_table_kept.
  split_and!.
  - unfold any_value in Hany. apply existsb_exists in Hany as ([k v] & Hin & Hv).
    exists k, v. split.
    + apply elem_of_map_to_list. by apply list_elem_of_In.
    + simpl in Hv. apply negb_true_iff, bool_decide_eq_false in Hv. done.
  - intros k v (a & b & _ & ->)%make_row_values.
    destruct (strip_split (slice ln a b)) as (_ & _ & _ & _ & _ & H1 & H2).
    split_and!; [apply strip_idemp|done..].
  - exists ln. split_and!; [done..|].
    intros k v (a & b & _ & ->)%make_row_values. by exists a, b.
Qed.

Lemma parse_winget_table_rows_trimmed_witness :
  ∃ r, head (parse_winget_table demo_table) = Some r
    ∧ (∃ k v, r !! k = Some v ∧ v ≠ [])
    ∧ (∀ k v, r !! k = Some v →
         strip v = v ∧ starts_with_space v = false ∧ starts_with_space (rev v) = false).
Proof.
  destruct (parse_winget_table demo_table) as [|r rows] eqn:E;
    [vm_compute in E; discriminate|].
  exists r. split; [done|].
  destruct (parse_winget_table_rows_trimmed demo_table r) as (H1 & H2 & _); [|by split].
  rewrite E. apply list_elem_of_here.
Defined.

Lemma header_index_from_app (lines more : list str) (k i : nat) :
  header_index_from k lines = Some i → header_index_from k (lines ++ more) = Some i.
Proof.
  revert k. induction lines as [|ln lines IH]; intros k; simpl; [done|].
  destruct (is_header ln); [done|]. apply IH.
Qed.

Lemma delim_index_app (rest more : list str) (k : nat) :
  delim_index k rest < k + length rest →
  delim_index k (rest ++ more) = delim_index k rest.
Proof.
  revert k. induction rest as [|ln rest IH]; intros k; simpl; [lia|].
  destruct (re_match_dash_line (strip ln)); [done|].
  destruct (re_match_dash_prefix (strip ln)); [done|].
  intros H. apply IH. lia.
Qed.

(** With the head of the table in [lines], the rows are those of the
    data loop on what follows the delimiter. *)
Lemma parse_winget_table_head (output : str) (lines more : list str)
  (header_idx delim_idx : nat) :
  text_lines output = lines ++ more →
  table_head lines header_idx delim_idx →
  parse_winget_table output =
    let header_line := default [] (lines !! header_idx) in
    let names := col_names header_line in
    match names with
    | [] => []
    | _ => parse_rows (build_slices names (col_starts header_line names 0))
             (drop (S delim_idx) lines ++ more)
    end.
Proof.
  intros Hlines (Hhi & Hdi & Hlt). unfold parse_winget_table. rewrite Hlines.
  destruct (header_index_from_lookup _ _ _ Hhi) as (_ & h & Hh & _).
  rewrite Nat.sub_0_r in Hh. pose proof (lookup_lt_Some _ _ _ Hh) as Hhlt.
  destruct (lines ++ more) as [|l0 ls] eqn:Happ.
  { apply (f_equal length) in Happ. rewrite length_app in Happ. simpl in Happ. lia. }
  rewrite <- Happ. unfold header_index in *.
  rewrite (header_index_from_app _ _ _ _ Hhi).
  rewrite drop_app_le by lia.
  rewrite delim_index_app by (rewrite length_drop; lia).
  rewrite Hdi.
  destruct (Nat.leb_spec (length (lines ++ more)) delim_idx) as [Hle|_].
  { rewrite length_app in Hle. lia. }
  rewrite lookup_app_l by done. rewrite Hh. cbn [default]. unfold Datatypes.id.
  by rewrite drop_app_le by lia.
Qed.

Lemma parse_rows_summary (slices : list (str * nat * nat)) (before after : list str)
  (ln : str) :
  is_summary_line ln = true →
  parse_rows slices (before ++ ln :: after) = parse_rows slices before.
Proof.
  unfold is_summary_line. intros Hstop.
  induction before as [|b before IH]; cbn [app parse_rows].
  - by rewrite Hstop.
  - by rewrite IH.
Qed.

Lemma dash_line_not_summary (ln : str) :
  is_dash_line ln = true → is_summary_line ln = false.
Proof.
  unfold is_dash_line, is_summary_line.
  destruct (strip ln) as [|c s]; [done|]. simpl.
  intros [Hc _]%andb_true_iff. apply bool_decide_eq_true in Hc as <-. done.
Qed.

Lemma parse_rows_dash (slices : list (str * nat * nat)) (before after : list str)
  (ln : str) :
  is_dash_line ln = true →
  parse_rows slices (before ++ ln :: after) = parse_rows slices (before ++ after).
Proof.
  intros Hdash. pose proof (dash_line_not_summary ln Hdash) as Hstop.
  unfold is_dash_line, is_summary_line in *.
  induction before as [|b before IH]; cbn [app parse_rows].
  - by rewrite Hstop, Hdash.
  - by rewrite IH.
Qed.

(** X3. Reading stops at the first line that, trimmed and in lower
    case, starts with [no installed package]: with the head of the table
    before it, that line and all the lines after it change nothing to the
    rows returned. *)
Theorem parse_winget_table_stops (output output' : str) (lines after : list str)
  (ln : str) (header_idx delim_idx : nat) :
  text_lines output = lines ++ ln :: after →
  text_lines output' = lines →
  table_head lines header_idx delim_idx →
  is_summary_line ln = true →
  parse_winget_table output = parse_winget_table output'.
Proof.
  intros Ho Ho' Hhead Hstop.
  rewrite (parse_winget_table_head output lines (ln :: after) header_idx delim_idx)
    by done.
  rewrite (parse_winget_table_head output' lines [] header_idx delim_idx)
    by (by rewrite ?app_nil_r).
  cbv zeta. destruct (col_names _); [done|].
  by rewrite parse_rows_summary, app_nil_r.
Qed.

(** X4. A line among the data that, trimmed, starts with three dashes is
    skipped and does not end the table: with the head of the table
    before it, the rows are those of the text without that line. *)
Theorem parse_winget_table_skips_dashes (output output' : str)
  (lines after : list str) (ln : str) (header_idx delim_idx : nat) :
  text_lines output = lines ++ ln :: after →
  text_lines output' = lines ++ after →
  table_head lines header_idx delim_idx →
  is_dash_line ln = true →
  parse_winget_table output = parse_winget_table output'.
Proof.
  intros Ho Ho' Hhead Hdash.
  rewrite (parse_winget_table_head output lines (ln :: after) header_idx delim_idx)
    by done.
  rewrite (parse_winget_table_head output' lines after header_idx delim_idx) by done.
  cbv zeta. destruct (col_names _); [done|].
  by rewrite parse_rows_dash.
Qed.

Lemma parse_winget_table_stops_witness :
  parse_winget_table listing_with_summary = parse_winget_table listing
  ∧ length (parse_winget_table listing) = 1.
Proof.
  split; [|vm_compute; reflexivity].
  apply (parse_winget_table_stops listing_with_summary listing listing_lines
           [("Bar   C.D  2.0" : str)]
           "No installed package found matching input criteria." 0 1).
  - vm_compute. reflexivity.
  - vm_compute. reflexivity.
  - split_and!; [vm_compute; reflexivity | vm_compute; reflexivity | vm_compute; lia].
  - vm_compute. reflexivity.
Defined.

Lemma parse_winget_table_skips_dashes_witness :
  parse_winget_table listing_with_dashes = parse_winget_table listing_two_rows
  ∧ length (parse_winget_table listing_two_rows) = 2.
Proof.
  split; [|vm_compute; reflexivity].
  apply (parse_winget_table_skips_dashes listing_with_dashes listing_two_rows
           listing_lines [("Bar   C.D  2.0" : str)] "------------------" 0 1).
  - vm_compute. reflexivity.
  - vm_compute. reflexivity.
  - split_and!; [vm_compute; reflexivity | vm_compute; reflexivity | vm_compute; lia].
  - vm_compute. reflexivity.
Defined.

(** ** Tables in fixed columns *)

(** What [strip] returns is determined by what it removes. *)
Lemma strip_unique (pre t post : str) :
  forallb isspace pre = true → forallb isspace post = true →
  trimmed t = true → strip (pre ++ t ++ post) = t.
Proof.
  unfold trimmed. rewrite andb_true_iff, !negb_true_iff. intros Hpre Hpost [Hh Hl].
  assert (∀ (ws s : str), forallb isspace ws = true →
            drop_while isspace (ws ++ s) = drop_while isspace s) as Hskip.
  { intros ws s Hws. induction ws as [|c ws IH]; simpl in *; [done|].
    apply andb_true_iff in Hws as [-> Hws]. by apply IH. }
  assert (∀ ws : str, forallb isspace ws = true → drop_while isspace ws = []) as Hall.
  { intros ws Hws. rewrite <- (app_nil_r ws). by rewrite Hskip. }
  unfold strip, lstrip, rstrip. rewrite Hskip by done.
  destruct t as [|c t].
  - simpl. rewrite (Hall post) by done. reflexivity.
  - rewrite (drop_while_id isspace ((c :: t) ++ post)) by (by apply starts_with_space_false).
    rewrite !reverse_eq_rev, rev_app_distr, Hskip by (by rewrite forallb_rev).
    rewrite drop_while_id by (by apply starts_with_space_false).
    apply rev_involutive.
Qed.

Lemma strip_trimmed (cell : str) : trimmed cell = true → strip cell = cell.
Proof.
  unfold trimmed. rewrite andb_true_iff, !negb_true_iff. intros [H1 H2].
  by apply strip_id.
Qed.

Lemma strip_pad (width : nat) (cell : str) :
  trimmed cell = true → strip (pad width cell) = cell.
Proof.
  intros Ht. unfold pad. apply (strip_unique [] cell); [done| |done].
  apply forallb_forall. intros c Hc%list_elem_of_In%elem_of_replicate. by destruct Hc as [-> _].
Qed.

Lemma length_pad (width : nat) (cell : str) :
  length cell ≤ width → length (pad width cell) = width.
Proof. intros H. unfold pad. rewrite length_app, length_replicate. lia. Qed.

(** The first search finds a name that follows white space where it is. *)
Lemma find_aux_after_space (sub ws rest : str) (i : nat) :
  forallb isspace ws = true → starts_with_space sub = false → sub ≠ [] →
  find_aux sub (ws ++ sub ++ rest) i = Some (i + length ws).
Proof.
  intros Hws Hsub Hne. revert i. induction ws as [|c ws IH]; intros i.
  - simpl. assert (startswith sub (sub ++ rest) = true) as H
      by (apply startswith_spec; by exists rest).
    destruct sub as [|d sub]; [done|]. simpl in *. by rewrite H, Nat.add_0_r.
  - simpl in Hws. apply andb_true_iff in Hws as [Hc Hws].
    destruct sub as [|d sub]; [done|]. simpl in Hsub.
    cbn [app find_aux startswith].
    assert (bool_decide (d = c) = false) as -> by (apply bool_decide_eq_false; congruence).
    cbn [andb]. rewrite IH by done. f_equal. simpl. lia.
Qed.

Lemma layout_starts_with (first : str) (cols : list (str * str)) :
  ∃ rest, layout first cols = first ++ rest.
Proof.
  destruct cols as [|[sep l] cols]; simpl; [exists []; by rewrite app_nil_r|by eexists].
Qed.

Lemma col_starts_found (h n : str) (ns : list str) (search_from pos : nat) :
  find h n search_from = Some pos →
  col_starts h (n :: ns) search_from = pos :: col_starts h ns (pos + length n).
Proof. intros H. cbn [col_starts]. by rewrite H. Qed.

Lemma find_after_space (pre ws sub rest : str) :
  forallb isspace ws = true → starts_with_space sub = false → sub ≠ [] →
  find (pre ++ ws ++ sub ++ rest) sub (length pre) = Some (length pre + length ws).
Proof.
  intros Hws Hsub Hne. unfold find. rewrite drop_app_length.
  destruct (Nat.ltb_spec (length (pre ++ ws ++ sub ++ rest)) (length pre)) as [Hlt|_].
  { rewrite length_app in Hlt. lia. }
  by apply find_aux_after_space.
Qed.

(** The starts the parser finds in a well-formed header are the starts
    of its labels. *)
Lemma col_starts_layout (cols : list (str * str)) :
  ∀ (first pre ws : str),
    label_ok first = true → cols_ok cols = true → forallb isspace ws = true →
    col_starts (pre ++ ws ++ layout first cols) (labels_of first cols) (length pre)
    = offsets (length pre + length ws) first cols.
Proof.
  induction cols as [|[sep l] cols IH]; intros first pre ws Hf Hc Hws;
    pose proof Hf as (Hhead & _ & Hne & _)%label_ok_spec;
    unfold labels_of; cbn [map offsets layout snd].
  - rewrite (col_starts_found _ _ _ _ (length pre + length ws)); [done|].
    rewrite <- (app_nil_r first) at 1. by apply find_after_space.
  - apply cols_ok_cons in Hc as (Hsep & Hl & Hc).
    rewrite (col_starts_found _ _ _ _ (length pre + length ws))
      by (by apply find_after_space).
    f_equal.
    specialize (IH l (pre ++ ws ++ first) sep Hl Hc).
    unfold labels_of in IH.
    rewrite <- !app_assoc in IH. rewrite !length_app in IH.
    rewrite ?Nat.add_assoc in IH.
    apply IH. unfold sep_ok in Hsep. by apply andb_true_iff in Hsep as [_ ?].
Qed.

Lemma build_slices_cons (n : str) (ns : list str) (s : nat) (ss : list nat) :
  build_slices (n :: ns) (s :: ss)
  = (n, s, default LAST_END (head ss)) :: build_slices ns ss.
Proof.
  unfold build_slices. rewrite imap_cons, head_lookup. reflexivity.
Qed.

(** The value of each column of a line in fixed columns is its cell. *)
Lemma render_line_cells (cols : list (str * str)) :
  ∀ (first pre : str) (cells : list str),
    cells_fit first cols cells = true →
    length (pre ++ render_line first cols cells) ≤ LAST_END →
    map (λ sl, strip (slice (pre ++ render_line first cols cells) sl.1.2 sl.2))
        (build_slices (labels_of first cols) (offsets (length pre) first cols))
    = cells.
Proof.
  induction cols as [|[sep l] cols IH]; intros first pre cells Hfit Hlen;
    destruct cells as [|cell cells]; try done;
    cbn [cells_fit] in Hfit; apply andb_true_iff in Hfit as [Ht Hfit].
  - destruct cells; [|done]. simpl in *.
    unfold slice. rewrite drop_app_length, take_ge.
    + f_equal. by apply strip_trimmed.
    + rewrite length_app in Hlen. lia.
  - apply andb_true_iff in Hfit as [Hw Hfit]. apply Nat.leb_le in Hw.
    unfold labels_of. cbn [map snd offsets render_line].
    rewrite build_slices_cons.
    assert (head (offsets (length pre + length first + length sep) l cols)
            = Some (length pre + length first + length sep)) as ->
      by (by destruct cols as [|[??]?]).
    cbn [map fst snd default]. unfold Datatypes.id. f_equal.
    + unfold slice. rewrite drop_app_length.
      replace (length pre + length first + length sep - length pre)
        with (length (pad (length first + length sep) cell))
        by (rewrite length_pad by done; lia).
      rewrite take_app_length. by apply strip_pad.
    + specialize (IH l (pre ++ pad (length first + length sep) cell) cells Hfit).
      rewrite <- !app_assoc in IH.
      rewrite (length_app pre (pad _ _)), length_pad, Nat.add_assoc in IH by done.
      apply IH. cbn [render_line] in Hlen. done.
Qed.

Lemma make_row_keep (ln : str) (slices : list (str * nat * nat)) (k : str) :
  k ∉ map (λ sl, sl.1.1) slices →
  ∀ r : row,
    foldl (λ (r : row) '(name, start, end_),
             <[name := strip (slice ln start end_)]> r) r slices !! k = r !! k.
Proof.
  induction slices as [|[[n a] b] slices IH]; intros Hk r; simpl; [done|].
  simpl in Hk. apply not_elem_of_cons in Hk as [Hne Hk].
  rewrite IH by done. by rewrite lookup_insert_ne.
Qed.

(** With distinct names, reading a row at the names gives the values of
    the slices. *)
Lemma make_row_get (ln : str) (slices : list (str * nat * nat)) :
  NoDup (map (λ sl, sl.1.1) slices) →
  map (get (make_row slices ln)) (map (λ sl, sl.1.1) slices)
  = map (λ sl, strip (slice ln sl.1.2 sl.2)) slices.
Proof.
  unfold make_row. generalize (∅ : row).
  induction slices as [|[[n a] b] slices IH]; intros r Hnd; [done|].
  cbn [map fst snd] in *. apply NoDup_cons in Hnd as [Hn Hnd].
  cbn [foldl]. f_equal.
  - unfold get. rewrite make_row_keep by done. by rewrite lookup_insert_eq.
  - by apply IH.
Qed.

Lemma any_value_true (r : row) (k v : str) :
  r !! k = Some v → v ≠ [] → any_value r = true.
Proof.
  intros Hk Hv. unfold any_value. apply existsb_exists. exists (k, v). split.
  - apply list_elem_of_In. by apply elem_of_map_to_list.
  - simpl. apply negb_true_iff. by apply bool_decide_eq_false.
Qed.

Lemma offsets_length (p : nat) (first : str) (cols : list (str * str)) :
  length (offsets p first cols) = length (labels_of first cols).
Proof.
  revert p first. induction cols as [|[sep l] cols IH]; intros p first; simpl; [done|].
  rewrite IH. done.
Qed.

(** The row the parser makes of a data line in fixed columns. *)
Lemma make_row_render (first : str) (cols : list (str * str)) (cells : list str) :
  NoDup (labels_of first cols) →
  data_row_ok first cols cells = true →
  let r := make_row (build_slices (labels_of first cols) (offsets 0 first cols))
             (render_line first cols cells) in
  map (get r) (labels_of first cols) = cells ∧ any_value r = true.
Proof.
  intros Hnd Hok r. unfold data_row_ok in Hok.
  apply andb_true_iff in Hok as [Hok _]. apply andb_true_iff in Hok as [Hok _].
  apply andb_true_iff in Hok as [Hok Hlen]. apply andb_true_iff in Hok as [Hfit Hsome].
  apply Nat.leb_le in Hlen.
  pose proof (render_line_cells cols first [] cells Hfit Hlen) as Hcells.
  cbn [app length] in Hcells.
  assert (map (get r) (labels_of first cols) = cells) as Hget.
  { etransitivity; [|exact Hcells]. unfold r.
    pose proof (make_row_get (render_line first cols cells)
                  (build_slices (labels_of first cols) (offsets 0 first cols))) as H.
    rewrite build_slices_names in H. by apply H. }
  split; [done|].
  apply existsb_exists in Hsome as (c & Hc & Hne).
  apply negb_true_iff, bool_decide_eq_false in Hne.
  rewrite <- Hget in Hc. apply list_elem_of_In, list_elem_of_fmap in Hc as (k & -> & _).
  unfold get in Hne. destruct (r !! k) as [v|] eqn:Hk; [|done].
  by apply (any_value_true r k v).
Qed.

Lemma parse_rows_rendered (first : str) (cols : list (str * str))
  (rows : list (list str)) :
  NoDup (labels_of first cols) →
  Forall (λ cells, data_row_ok first cols cells = true) rows →
  map (λ r, map (get r) (labels_of first cols))
      (parse_rows (build_slices (labels_of first cols) (offsets 0 first cols))
         (map (render_line first cols) rows))
  = rows.
Proof.
  intros Hnd. induction 1 as [|cells rows Hok _ IH]; [done|].
  cbn [map parse_rows].
  destruct (make_row_render first cols cells Hnd Hok) as [Hget Hany].
  unfold data_row_ok in Hok.
  apply andb_true_iff in Hok as [Hok Hd]. apply andb_true_iff in Hok as [_ Hs].
  apply negb_true_iff in Hd, Hs. unfold is_dash_line, is_summary_line in *.
  rewrite Hs, Hd, Hany. cbn [map]. by rewrite Hget, IH.
Qed.

(** X5. A table in fixed columns is read back as it was written: when
    the lines of the text are a header of distinct labels separated by
    white space, a line of dashes, and data lines whose cells are
    trimmed, fit their columns and are padded with spaces to the start of
    the next column, the parser returns one row per data line, in order,
    and reading each row at the labels gives the cells of its line. *)
Theorem parse_winget_table_fixed_columns (output : str) (first delim : str)
  (cols : list (str * str)) (rows : list (list str)) :
  text_lines output
    = layout first cols :: delim :: map (render_line first cols) rows →
  is_header (layout first cols) = true →
  label_ok first = true → cols_ok cols = true →
  NoDup (labels_of first cols) →
  re_match_dash_prefix (strip delim) = true →
  Forall (λ cells, data_row_ok first cols cells = true) rows →
  map (λ r, map (get r) (labels_of first cols)) (parse_winget_table output) = rows
  ∧ length (parse_winget_table output) = length rows.
Proof.
  intros Hlines Hhead Hf Hc Hnd Hdelim Hrows.
  assert (map (λ r, map (get r) (labels_of first cols)) (parse_winget_table output) = rows)
    as Hmap.
  { rewrite (parse_winget_table_head output [layout first cols; delim]
               (map (render_line first cols) rows) 0 1).
    - cbn [lookup list_lookup default]. unfold Datatypes.id. cbv zeta.
      rewrite col_names_layout by done.
      pose proof (col_starts_layout cols first [] [] Hf Hc eq_refl) as Hstarts.
      change (col_starts (layout first cols) (labels_of first cols) 0
              = offsets 0 first cols) in Hstarts.
      rewrite Hstarts.
      unfold labels_of at 1. cbn [drop app].
      by apply parse_rows_rendered.
    - done.
    - unfold table_head, header_index. cbn [header_index_from]. rewrite Hhead.
      split_and!; [done| |simpl; lia].
      cbn [drop delim_index]. rewrite Hdelim.
      by destruct (re_match_dash_line (strip delim)). }
  split; [done|]. apply (f_equal length) in Hmap. by rewrite length_map in Hmap.
Qed.

Lemma parse_winget_table_fixed_columns_witness :
  map (λ r, map (get r) [("Name" : str); ("Id" : str); ("Version" : str)])
      (parse_winget_table aligned_table)
  = aligned_rows
  ∧ length (parse_winget_table aligned_table) = 2.
Proof.
  apply (parse_winget_table_fixed_columns aligned_table "Name"
           "-------------------------" aligned_cols aligned_rows).
  - vm_compute. reflexivity.
  - vm_compute. reflexivity.
  - vm_compute. reflexivity.
  - vm_compute. reflexivity.
  - apply (bool_decide_unpack _). vm_compute. exact I.
  - vm_compute. reflexivity.
  - apply Forall_forall. intros cells Hc.
    change aligned_rows with
      [ [("Foo Bar" : str); ("Foo.Bar" : str); ("1.0" : str)];
        [("Baz" : str); ("Baz.Qux" : str); ([] : str)] ] in Hc.
    apply elem_of_cons in Hc as [->|Hc]; [vm_compute; reflexivity|].
    apply list_elem_of_singleton in Hc as ->. vm_compute. reflexivity.
Defined.

(** ** Lines *)

Lemma splitlines_aux_line (ln cur rest : str) :
  forallb (λ c, negb (is_linebreak c)) ln = true →
  splitlines_aux cur (ln ++ rest) = splitlines_aux (rev ln ++ cur) rest.
Proof.
  revert cur. induction ln as [|c ln IH]; intros cur Hln; [done|].
  simpl in Hln. apply andb_true_iff in Hln as [Hc Hln]. apply negb_true_iff in Hc.
  cbn [app splitlines_aux]. rewrite Hc, IH by done.
  cbn [rev]. by rewrite <- app_assoc.
Qed.

Lemma splitlines_aux_nl (cur rest : str) :
  splitlines_aux cur (nl ++ rest) = reverse cur :: splitlines_aux [] rest.
Proof. by destruct rest. Qed.

Lemma splitlines_aux_crlf (cur rest : str) :
  splitlines_aux cur (crlf ++ rest) = reverse cur :: splitlines_aux [] rest.
Proof. reflexivity. Qed.

Lemma is_line_spec (ln : str) :
  is_line ln = true ↔
  forallb (λ c, negb (is_linebreak c)) ln = true ∧ strip ln ≠ [].
Proof.
  unfold is_line. by rewrite andb_true_iff, negb_true_iff, bool_decide_eq_false.
Qed.

Lemma splitlines_join (sep : str) (lines : list str) :
  (∀ cur rest, splitlines_aux cur (sep ++ rest) = reverse cur :: splitlines_aux [] rest) →
  Forall (λ ln, is_line ln = true) lines →
  splitlines (join sep lines) = lines.
Proof.
  intros Hsep. unfold splitlines.
  induction 1 as [|ln lines Hln Hlines IH]; [done|].
  apply is_line_spec in Hln as [Hnb Hne].
  assert (ln ≠ []) as Hne' by (by intros ->).
  destruct lines as [|ln2 lines];
    [cbn [join]|change (join sep (ln :: ln2 :: lines))
                   with (ln ++ sep ++ join sep (ln2 :: lines))].
  - rewrite <- (app_nil_r ln) at 1. rewrite splitlines_aux_line by done.
    rewrite app_nil_r. cbn [splitlines_aux].
    destruct (rev ln) eqn:Hrev.
    + apply (f_equal (@rev ascii)) in Hrev. rewrite rev_involutive in Hrev. done.
    + by rewrite <- Hrev, reverse_eq_rev, rev_involutive.
  - rewrite splitlines_aux_line, Hsep, app_nil_r by done.
    by rewrite reverse_eq_rev, rev_involutive, IH.
Qed.

Lemma rstrip_chars_line (ln : str) :
  forallb (λ c, negb (is_linebreak c)) ln = true → rstrip_chars nl ln = ln.
Proof.
  intros Hln. unfold rstrip_chars. rewrite !reverse_eq_rev.
  rewrite drop_while_id; [apply rev_involutive|].
  destruct (rev ln) as [|c r] eqn:Hrev; [done|].
  apply bool_decide_eq_false. intros Hc%list_elem_of_singleton. subst c.
  assert ("010"%char ∈ ln) as Hin.
  { apply list_elem_of_In, in_rev. rewrite Hrev. by left. }
  rewrite forallb_forall in Hln. apply list_elem_of_In, Hln in Hin. done.
Qed.

Lemma text_lines_of_lines (output : str) (lines : list str) :
  splitlines output = lines → Forall (λ ln, is_line ln = true) lines →
  text_lines output = lines.
Proof.
  intros E Hlines. unfold text_lines. rewrite E. clear E.
  induction Hlines as [|ln lines Hln _ IH]; [done|].
  apply is_line_spec in Hln as [Hnb Hne].
  rewrite filter_cons_True by done. cbn [map]. rewrite IH.
  f_equal. by apply rstrip_chars_line.
Qed.

(** X6. The lines the parser works on are the lines of the text: when
    no line holds a line boundary and none is blank, the lines joined by
    line feeds, or by carriage return and line feed, are read back as
    they are. *)
Theorem text_lines_join (lines : list str) :
  Forall (λ ln, is_line ln = true) lines →
  text_lines (join nl lines) = lines ∧ text_lines (join crlf lines) = lines.
Proof.
  intros Hlines. split; apply text_lines_of_lines; try done; apply splitlines_join;
    auto using splitlines_aux_nl, splitlines_aux_crlf.
Qed.

Lemma text_lines_join_witness :
  text_lines (join nl listing_lines) = listing_lines
  ∧ text_lines (join crlf listing_lines) = listing_lines.
Proof.
  apply (text_lines_join listing_lines).
  unfold listing_lines. repeat constructor.
Defined.

(** ** Where the columns start *)

Lemma col_starts_step (h name : str) (names : list str) (search_from : nat) :
  search_from ≤ length h → in_order (name :: names) (drop search_from h) →
  ∃ pos, find h name search_from = Some pos
         ∧ search_from ≤ pos
         ∧ take (length name) (drop pos h) = name
         ∧ pos + length name ≤ length h
         ∧ in_order names (drop (pos + length name) h).
Proof.
  intros Hle (before & rest & E & Hrest)%in_order_cons_inv.
  destruct (find_aux_found name before rest search_from) as (q & Hq & Hfind & Hsw).
  exists (search_from + q).
  apply startswith_spec in Hsw as [r Hr].
  assert (drop (search_from + q) h = name ++ r) as Hdrop
    by (by rewrite <- drop_drop, E).
  split_and!.
  - unfold find. destruct (Nat.ltb_spec (length h) search_from) as [?|_]; [lia|].
    by rewrite E.
  - lia.
  - by rewrite Hdrop, take_app_length.
  - pose proof (f_equal length E) as Hlen.
    rewrite length_drop, !length_app in Hlen. lia.
  - rewrite <- drop_drop, Hdrop, drop_app_length.
    rewrite drop_app_le, app_assoc in Hr by done.
    apply (f_equal (drop (length name))) in Hr.
    rewrite drop_app_length, drop_app_le in Hr by (rewrite length_app; lia).
    rewrite <- Hr. by apply in_order_before.
Qed.

Lemma col_starts_placed (h : str) (names : list str) :
  ∀ search_from, search_from ≤ length h → in_order names (drop search_from h) →
    placed h names (col_starts h names search_from) search_from.
Proof.
  induction names as [|name names IH]; intros from Hle Ho; [done|].
  destruct (col_starts_step h name names from Hle Ho)
    as (pos & Hfind & Hge & Htake & Hle' & Ho').
  rewrite (col_starts_found _ _ _ _ _ Hfind). cbn [placed].
  split_and!; [done..|]. by apply IH.
Qed.

(** X7. For every header line, the column names the parser reads are
    not empty and are trimmed, and each column starts at a place where
    its name stands in the header, at or after the end of the name before
    it: the names are found left to right without overlap, and the two
    fallbacks of the search are never used. *)
Theorem col_names_placed (h : str) :
  Forall (λ n, n ≠ [] ∧ strip n = n) (col_names h)
  ∧ placed h (col_names h) (col_starts h (col_names h) 0) 0.
Proof.
  split.
  - apply Forall_forall. intros n Hn.
    pose proof (col_names_nonempty h) as Hne. rewrite Forall_forall in Hne.
    split; [by apply Hne|].
    unfold col_names in Hn. apply list_elem_of_fmap in Hn as (c & -> & _).
    apply strip_idemp.
  - apply col_starts_placed; [lia|]. rewrite drop_0. apply col_names_in_order.
Qed.

(** * More of the sorting *)

Lemma strongly_sorted_pairs {A} (R : A → A → Prop) (l : list A) (i j : nat) (a b : A) :
  StronglySorted R l → i < j → l !! i = Some a → l !! j = Some b → R a b.
Proof.
  intros Hs. revert i j. induction Hs as [|x l Hs IH Hx]; intros i j Hij Ha Hb; [done|].
  destruct j as [|j]; [lia|]. simpl in Hb.
  destruct i as [|i]; simpl in Ha.
  - simplify_eq. rewrite Forall_forall in Hx. apply Hx.
    by eapply list_elem_of_lookup_2.
  - apply (IH i j); [lia|done..].
Qed.






Lemma lower_nil (s : str) : lower s = [] ↔ s = [].
Proof. destruct s; simpl; naive_solver. Qed.





(** X10. After an ascending sort on [Pinned], with distinct item
    identifiers, no row whose cell is not [yes] (in any case) is above a
    row whose cell is: the pinned packages come first. *)
Theorem pinned_first (t : list item) (i j : nat) (a b : item) :
  NoDup (map iid t) →
  _sort_tree "Pinned" false t !! i = Some a →
  _sort_tree "Pinned" false t !! j = Some b →
  lower (strip (cell "Pinned" a)) = ("yes" : str) →
  lower (strip (cell "Pinned" b)) ≠ ("yes" : str) →
  i < j.
Proof.
  intros Hnd Ha Hb Hyes Hno.
  destruct (decide (i < j)) as [|Hge]; [done|]. exfalso.
  assert (i ≠ j) as Hne by (intros ->; rewrite Ha in Hb; by simplify_eq).
  rewrite sort_tree_eq in Ha, Hb by done.
  pose proof (list_sort_sorted (item_lt "Pinned") (item_lt_weak "Pinned") false t) as Hs.
  pose proof (strongly_sorted_pairs _ _ j i b a Hs ltac:(lia) Hb Ha) as Hord.
  unfold not_after, item_lt, sortable_lt, sort_entry, _cell_key in Hord. simpl in Hord.
  rewrite (bool_decide_true _ Hyes), (bool_decide_false _ Hno) in Hord. done.
Qed.

Lemma pinned_first_witness :
  let t := [ {| iid := 0; values := [("A" : str); ("a" : str); []; []; []; ("No" : str)] |};
             {| iid := 1; values := [("B" : str); ("b" : str); []; []; []; ("Yes" : str)] |} ] in
  map iid (_sort_tree "Pinned" false t) = [1; 0] ∧ 0 < 1.
Proof.
  intros t. split; [vm_compute; reflexivity|].
  apply (pinned_first t 0 1 {| iid := 1; values := [("B" : str); ("b" : str); []; []; []; ("Yes" : str)] |}
           {| iid := 0; values := [("A" : str); ("a" : str); []; []; []; ("No" : str)] |}).
  - change (NoDup [0; 1]). apply (bool_decide_unpack _). vm_compute. exact I.
  - vm_compute. reflexivity.
  - vm_compute. reflexivity.
  - vm_compute. reflexivity.
  - vm_compute. discriminate.
Defined.

(** * The local filter *)

Lemma contains_spec (sub s : str) :
  contains sub s = true ↔ ∃ a b, s = a ++ sub ++ b.
Proof.
  induction s as [|c s IH]; simpl.
  - rewrite orb_false_r, startswith_spec. split.
    + intros [r Hr]. by exists [], r.
    + intros (a & b & E). destruct a; [by exists b|done].
  - rewrite orb_true_iff, startswith_spec, IH. split.
    + intros [[r Hr]|(a & b & ->)]; [by exists [], r|by exists (c :: a), b].
    + intros (a & b & E). destruct a as [|d a].
      * left. by exists b.
      * right. injection E as -> ->. by exists a, b.
Qed.

Lemma contains_trans (a b c : str) :
  contains a b = true → contains b c = true → contains a c = true.
Proof.
  rewrite !contains_spec. intros (x & y & ->) (u & v & ->).
  exists (u ++ x), (y ++ v). by rewrite <- !app_assoc.
Qed.

Lemma contains_nil_r (a : str) : contains a [] = true → a = [].
Proof. intros (x & y & E)%contains_spec. destruct x, a; done. Qed.

Lemma filter_rows_unfold (rows : list PackageRow) (text : str) :
  _filter_rows rows text =
    if decide (lower (strip text) = []) then rows
    else filter (λ r, contains (lower (strip text)) (haystack r) = true) rows.
Proof. unfold _filter_rows. by destruct (lower (strip text)). Qed.

(** X11. The filter keeps the rows, in their order, whose fields hold
    the text (trimmed, in lower case): a blank text keeps every row;
    otherwise a row is kept exactly when the text occurs in its fields;
    filtering twice by one text is filtering once; and two filters can
    be applied in either order. *)
Theorem filter_rows_spec (rows : list PackageRow) (text text' : str) :
  (strip text = [] → _filter_rows rows text = rows)
  ∧ _filter_rows rows text `sublist_of` rows
  ∧ (∀ r, r ∈ _filter_rows rows text ↔
          r ∈ rows ∧ (strip text = [] ∨ contains (lower (strip text)) (haystack r) = true))
  ∧ _filter_rows (_filter_rows rows text) text = _filter_rows rows text
  ∧ _filter_rows (_filter_rows rows text) text'
    = _filter_rows (_filter_rows rows text') text.
Proof.
  rewrite !filter_rows_unfold. split_and!.
  - intros ->. done.
  - case_decide; [done|apply sublist_filter].
  - intros r. case_decide as Hb.
    + apply (proj1 (lower_nil _)) in Hb.
      split; [intros ?; split; [done|by left] | by intros [? _]].
    + rewrite list_elem_of_filter. rewrite lower_nil in Hb.
      split; [intros [? ?]; split; [done|by right] | intros [? [?|?]]; done].
  - repeat case_decide; try done.
    rewrite list_filter_filter. apply list_filter_iff. intros r. tauto.
  - repeat case_decide; try done.
    rewrite !list_filter_filter. apply list_filter_iff. intros r. tauto.
Qed.

(** X12. A longer text never brings a row back: when the text of one
    filter (trimmed, in lower case) occurs in the text of another, every
    row the second filter keeps is kept by the first, in the same
    order. *)
Theorem filter_rows_refine (rows : list PackageRow) (text text' : str) :
  contains (lower (strip text)) (lower (strip text')) = true →
  _filter_rows rows text' `sublist_of` _filter_rows rows text
  ∧ _filter_rows (_filter_rows rows text) text' = _filter_rows rows text'.
Proof.
  intros Hsub. rewrite !filter_rows_unfold.
  destruct (decide (lower (strip text') = [])) as [Hb'|Hb'].
  - rewrite Hb' in Hsub. apply contains_nil_r in Hsub.
    rewrite decide_True by done. done.
  - destruct (decide (lower (strip text) = [])) as [Hb|Hb].
    + split; [apply sublist_filter|done].
    + assert (filter (λ r, contains (lower (strip text')) (haystack r) = true)
                (filter (λ r, contains (lower (strip text)) (haystack r) = true) rows)
              = filter (λ r, contains (lower (strip text')) (haystack r) = true) rows) as E.
      { rewrite list_filter_filter. apply list_filter_iff.
        intros r. split; [naive_solver|]. intros H. split; [done|].
        by apply (contains_trans _ (lower (strip text'))). }
      split; [|done]. rewrite <- E. apply sublist_filter.
Qed.

Lemma filter_rows_refine_witness :
  _filter_rows demo_rows " FIRE" `sublist_of` _filter_rows demo_rows "Fi"
  ∧ map id (_filter_rows demo_rows "moz") = [("Mozilla.Firefox" : str); ("Mozilla.Thunderbird" : str)]
  ∧ map id (_filter_rows demo_rows " FIRE") = [("Mozilla.Firefox" : str)].
Proof.
  split_and!; [|vm_compute; reflexivity..].
  apply (filter_rows_refine demo_rows "Fi" " FIRE"). vm_compute. reflexivity.
Defined.

(** * The commands *)

Lemma elem_of_skip3 {A} (x y a b : A) (l : list A) :
  x ≠ y → x ∈ a :: b :: y :: l ↔ x ∈ a :: b :: l.
Proof. intros H. rewrite !elem_of_cons. naive_solver. Qed.

Lemma elem_of_skip4 {A} (x y a b c : A) (l : list A) :
  x ≠ y → x ∈ a :: b :: c :: y :: l ↔ x ∈ a :: b :: c :: l.
Proof. intros H. rewrite !elem_of_cons. naive_solver. Qed.

Lemma elem_of_closed (x : str) (l : list str) : x ∈ l ↔ bool_decide (x ∈ l) = true.
Proof. symmetry. apply bool_decide_eq_true. Qed.

(** X13. Whatever the options, the install, upgrade and uninstall
    commands of a package and the upgrade-all command carry exactly one
    of [--silent] and [--interactive]: the first when the silent option
    is set, the second when it is not; the pin and unpin commands carry
    neither. (The identifier is passed as it is, so it must not itself
    be one of the two flags.) *)
Theorem silent_or_interactive (o : Options) (pid : str) (cmd : list str) :
  pid ≠ ("--silent" : str) → pid ≠ ("--interactive" : str) →
  (cmd ∈ [install_cmd o pid; upgrade_cmd o pid; uninstall_cmd o pid; upgrade_all_cmd o] →
     (("--silent" : str) ∈ cmd ↔ silent_var o = true)
     ∧ (("--interactive" : str) ∈ cmd ↔ silent_var o = false))
  ∧ (cmd ∈ [pin_cmd o pid; unpin_cmd o pid] →
     (("--silent" : str) ∉ cmd) ∧ (("--interactive" : str) ∉ cmd)).
Proof.
  intros H1 H2. split.
  - rewrite !elem_of_cons, elem_of_nil.
    intros [->|[->|[->|[->|[]]]]];
      unfold install_cmd, upgrade_cmd, uninstall_cmd, upgrade_all_cmd, _build_common_flags;
      destruct o as [[] [] [] [] []]; cbn [silent_var accept_var uninstall_source_winget_var
                                            include_unknown_var include_pinned_var app];
      rewrite ?(elem_of_skip3 _ pid) by done;
      rewrite (elem_of_closed "--silent"), (elem_of_closed "--interactive");
      vm_compute; done.
  - rewrite !elem_of_cons, elem_of_nil.
    intros [->|[->|[]]];
      unfold pin_cmd, unpin_cmd;
      destruct o as [[] [] [] [] []]; cbn [accept_var app];
      rewrite !(elem_of_skip4 _ pid) by done;
      rewrite (elem_of_closed "--silent"), (elem_of_closed "--interactive");
      vm_compute; done.
Qed.

Lemma silent_or_interactive_witness :
  (("--silent" : str) ∈ uninstall_cmd demo_options "A.B" ↔ silent_var demo_options = true)
  ∧ (("--interactive" : str) ∈ uninstall_cmd demo_options "A.B"
     ↔ silent_var demo_options = false).
Proof.
  apply (silent_or_interactive demo_options "A.B" (uninstall_cmd demo_options "A.B"));
    [discriminate | discriminate |].
  do 2 apply list_elem_of_further. apply list_elem_of_here.
Defined.

(** * The processes that are started *)

Section Tracing.
Context {World : Type} (os : OS World).

Lemma run_winget_traced (args : list str) (timeout : option Z) (w : World)
  (tr : list (list str)) :
  run_winget (tracing os) args timeout (w, tr) =
    ((run_winget os args timeout w).1,
     ((run_winget os args timeout w).2, tr ++ spawned os args w)).
Proof.
  unfold run_winget, run_winget_try, spawned. cbn [tracing which subprocess_run fst snd].
  destruct (truthy (which os w "winget")); cbn [negb].
  - by destruct (subprocess_run os w _ timeout) as [[p|[|e]] w'].
  - by rewrite app_nil_r.
Qed.
(** X14. A call of [run_winget] starts at most one process and never
    tries again: when [winget] is found, exactly the command line made
    of its path and the arguments is started, once, whatever the process
    returns; when it is not found, nothing is started. What the call
    returns does not depend on the record being kept. *)
Theorem run_winget_one_process (args : list str) (timeout : option Z) (w : World)
  (tr : list (list str)) :
  ∃ r w', run_winget os args timeout w = (r, w')
    ∧ run_winget (tracing os) args timeout (w, tr) = (r, (w', tr ++ spawned os args w))
    ∧ length (spawned os args w) ≤ 1
    ∧ (truthy (which os w "winget") = false → spawned os args w = [])
    ∧ (∀ exe, which os w "winget" = Some exe → exe ≠ [] →
         spawned os args w = [exe :: args]).
Proof.
  exists (run_winget os args timeout w).1, (run_winget os args timeout w).2.
  split_and!.
  - by destruct (run_winget os args timeout w).
  - apply run_winget_traced.
  - unfold spawned. destruct (truthy _); simpl; lia.
  - unfold spawned. by intros ->.
  - intros [|c exe] Hexe Hne; [done|]. unfold spawned. by rewrite Hexe.
Qed.

Lemma run_many_loop_traced (exe title : str) (total : nat) (cmd_lists : list (list str)) :
  (∀ w, which os w "winget" = Some exe) → exe ≠ [] →
  ∀ (i : nat) (q : list event) (w : World) (tr : list (list str)),
    run_many_loop (tracing os) title total i cmd_lists q (w, tr) =
      ((run_many_loop os title total i cmd_lists q w).1,
       ((run_many_loop os title total i cmd_lists q w).2,
        tr ++ map (cons exe) cmd_lists)).
Proof.
  intros Hexe Hne. induction cmd_lists as [|cmd rest IH]; intros i q w tr.
  - simpl. by rewrite app_nil_r.
  - cbn [run_many_loop map]. rewrite run_winget_traced.
    assert (spawned os cmd w = [exe :: cmd]) as ->.
    { unfold spawned. rewrite Hexe. by destruct exe. }
    destruct (run_winget_ok os cmd None w) as (rc & out & w' & ->). cbn [fst snd].
    rewrite IH. by rewrite <- (app_assoc tr).
Qed.

(** X15. While [winget] is found at one path, the worker of [_run_many]
    starts exactly one process per command of its list, in the order of
    the list and with the arguments of the list after the path; it
    starts nothing else, and the events it puts on the queue are the
    same whether or not the processes are recorded. *)
Theorem run_many_processes (exe title : str) (cmd_lists : list (list str))
  (refresh_after : bool) (q : list event) (w : World) (tr : list (list str)) :
  (∀ w, which os w "winget" = Some exe) → exe ≠ [] →
  ∃ r q' w', run_many_worker os title cmd_lists refresh_after q w = (r, q', w')
    ∧ run_many_worker (tracing os) title cmd_lists refresh_after q (w, tr)
      = (r, q', (w', tr ++ map (cons exe) cmd_lists)).
Proof.
  intros Hexe Hne. unfold run_many_worker.
  rewrite (run_many_loop_traced exe) by done.
  destruct (run_many_loop os title _ 1 cmd_lists q w) as [[[[]|e] q1] w1];
    cbn [fst snd]; by eauto.
Qed.
End Tracing.

Lemma run_many_processes_witness :
  let cmds := map (uninstall_cmd demo_options) [("A" : str); ("B" : str)] in
  let world := [exits 0 "done A" ""; exits 1 "" "failed B"] in
  ∃ r q' w',
    run_many_worker (tracing (scripted (Some ("winget.exe" : str)))) "Uninstall" cmds
      false [] (world, [])
    = (r, q', (w', map (cons ("winget.exe" : str)) cmds)).
Proof.
  intros cmds world.
  destruct (run_many_processes (scripted (Some ("winget.exe" : str))) "winget.exe"
              "Uninstall" cmds false [] world [] (λ _, eq_refl) ltac:(discriminate))
    as (r & q' & w' & _ & H).
  by exists r, q', w'.
Defined.

(** * More of the pin registry *)

Lemma last_elem_of {A} (l : list A) (x : A) : last l = Some x → x ∈ l.
Proof.
  rewrite last_lookup. apply list_elem_of_lookup_2.
Qed.

Lemma pins_of_table_entry (table : list row) (pid : str) (entry : row) :
  pins_of_table table !! pid = Some entry →
  pid ≠ [] ∧ ∃ r, r ∈ table ∧ row_id r = pid ∧ entry = pin_entry r.
Proof.
  rewrite pins_of_table_lookup. case_decide as Hpid; [done|].
  destruct (last _) as [r|] eqn:Hlast; [|done]. intros [= <-].
  split; [done|]. apply last_elem_of, list_elem_of_filter in Hlast as [Hid Hin].
  by exists r.
Qed.

Lemma pins_of_table_present (table : list row) (r : row) :
  r ∈ table → row_id r ≠ [] → is_Some (pins_of_table table !! row_id r).
Proof.
  intros Hin Hne. rewrite pins_of_table_lookup, decide_False by done.
  destruct (last (filter (λ r0, row_id r0 = row_id r) table)) as [x|] eqn:Hlast;
    [by eexists|].
  apply last_None in Hlast.
  assert (r ∈ filter (λ r0, row_id r0 = row_id r) table) as Hr
    by (by apply list_elem_of_filter).
  rewrite Hlast in Hr. by apply elem_of_nil in Hr.
Qed.

(** X16. The mapping [get_pins] builds from a pin listing never has the
    empty identifier as a key; each of its keys is the identifier of a
    row of the listing, and each of its entries is made of such a row and
    has exactly the three fields [Source], [Version] and [Pin type];
    every row of the listing with an identifier has its identifier among
    the keys. *)
Theorem pins_of_table_keys (table : list row) :
  pins_of_table table !! ([] : str) = None
  ∧ (∀ pid entry, pins_of_table table !! pid = Some entry →
       pid ≠ []
       ∧ (∃ r, r ∈ table ∧ row_id r = pid ∧ entry = pin_entry r)
       ∧ dom entry = {[ ("Source" : str); ("Version" : str); ("Pin type" : str) ]})
  ∧ (∀ r, r ∈ table → row_id r ≠ [] → row_id r ∈ dom (pins_of_table table)).
Proof.
  split_and!.
  - by rewrite pins_of_table_lookup.
  - intros pid entry H.
    destruct (pins_of_table_entry table pid entry H) as (Hne & r & Hin & Hid & ->).
    split_and!; [done|by exists r|].
    unfold pin_entry. rewrite !dom_insert_L, dom_empty_L. set_solver.
  - intros r Hin Hne. apply elem_of_dom. by apply pins_of_table_present.
Qed.

(** X17. Joining a listing with the pins read from a pin listing: a
    record is marked pinned exactly when its identifier is not empty and
    is the identifier of a row of the pin listing, and its pin version
    and pin type are then those of the last such row; a record without
    identifier is never marked pinned. *)
Theorem to_rows_join (pin_table table_rows : list row) (rec : PackageRow) :
  rec ∈ _to_rows (pins_of_table pin_table) table_rows →
  (pinned rec = ("Yes" : str)
   ↔ id rec ≠ [] ∧ ∃ p, p ∈ pin_table ∧ row_id p = id rec)
  ∧ (id rec = [] → pinned rec = ("No" : str) ∧ pin_type rec = [] ∧ pin_version rec = [])
  ∧ (∀ p, last (filter (λ r, row_id r = id rec) pin_table) = Some p → id rec ≠ [] →
       pin_version rec = get p "Version"
       ∧ pin_type rec = str_or (str_or (get p "Pin type") (get p "Pin")) (get p "Type")).
Proof.
  intros Hin. unfold _to_rows in Hin.
  apply list_elem_of_fmap in Hin as (r & -> & _).
  unfold to_row. cbn [pinned id pin_type pin_version].
  split_and!.
  - case_bool_decide as Hd.
    + split; [intros _|done]. apply elem_of_dom in Hd as [entry He].
      destruct (pins_of_table_entry _ _ _ He) as (Hne & p & Hp & Hid & _).
      split; [done|by exists p].
    + split; [discriminate|]. intros [Hne (p & Hp & Hid)]. exfalso. apply Hd.
      rewrite <- Hid. apply elem_of_dom, pins_of_table_present; [done|congruence].
  - intros Hid. rewrite Hid, pins_of_table_lookup, decide_True by done.
    split_and!; [|done..].
    rewrite bool_decide_false; [done|].
    intros [e He]%elem_of_dom. by rewrite pins_of_table_lookup in He.
  - intros p Hlast Hne. rewrite pins_of_table_lookup, decide_False, Hlast by done.
    cbn [fmap option_fmap option_map default]. unfold Datatypes.id, pin_entry, get.
    split.
    + rewrite lookup_insert_ne by done. by rewrite lookup_insert_eq.
    + by rewrite lookup_insert_eq.
Qed.

Lemma to_rows_join_witness :
  let pins := pins_of_table (parse_winget_table pin_listing) in
  let rec := to_row pins {[ ("Id" : str) := ("A.B" : str) ]} in
  (pinned rec = ("Yes" : str)
   ↔ id rec ≠ [] ∧ ∃ p, p ∈ parse_winget_table pin_listing ∧ row_id p = id rec)
  ∧ pin_version rec = ("3.0" : str).
Proof.
  intros pins rec. split; [|vm_compute; reflexivity].
  apply (to_rows_join (parse_winget_table pin_listing)
           [{[ ("Id" : str) := ("A.B" : str) ]}] rec).
  unfold _to_rows. apply list_elem_of_fmap. eexists. split; [reflexivity|].
  apply list_elem_of_here.
Defined.

(** * The window *)



Lemma imap_items_values (n : nat) (rows : list PackageRow) :
  map values (imap (λ i r, {| iid := n + i; values := row_values r |}) rows)
  = map row_values rows.
Proof.
  revert n. induction rows as [|r rows IH]; intros n; simpl; [done|].
  f_equal. rewrite <- (IH (S n)). f_equal.
  apply imap_ext. intros i x _. simpl. f_equal. lia.
Qed.












(** ** The queue poller *)


Lemma startswith_app (p s : str) : startswith p (p ++ s) = true.
Proof.
  induction p as [|c p IH]; [by destruct s|]. simpl.
  by rewrite bool_decide_true, IH.
Qed.







(** ** Loading *)

Section RefreshFacts.
Context {World : Type} (os : OS World).


End RefreshFacts.

(** ** The processes of a refresh *)

Section RefreshTracing.
Context {World : Type} (os : OS World).

Lemma get_pins_traced (w : World) (tr : list (list str)) :
  get_pins (tracing os) (w, tr) =
    ((get_pins os w).1,
     ((get_pins os w).2, tr ++ spawned os [("pin" : str); ("list" : str)] w)).
Proof.
  unfold get_pins. rewrite run_winget_traced.
  destruct (run_winget_ok os [("pin" : str); ("list" : str)] None w)
    as (rc & out & w' & ->).
  cbn [fst snd]. by case_bool_decide.
Qed.

(** X20. While [winget] is found at one path, the worker of [refresh]
    starts the pin listing first and then at most one more process, the
    listing of its mode: [search] with the search text, [list], or
    [upgrade] with the options ticked and never [--all]; in [Search]
    mode with an empty search text the pin listing is the only process.
    What the worker returns and puts on the queue does not depend on
    the record being kept. *)
Theorem refresh_processes (exe mode query : str) (o : Options) (q : list event)
  (w : World) (tr : list (list str)) :
  (∀ w, which os w "winget" = Some exe) → exe ≠ [] →
  ∃ r q' w',
    refresh_worker os mode query o q w = (r, q', w')
    ∧ refresh_worker (tracing os) mode query o q (w, tr) =
        (r, q', (w', tr ++ map (cons exe)
                          ([("pin" : str); ("list" : str)] :: refresh_cmds mode query o)))
    ∧ length (refresh_cmds mode query o) ≤ 1
    ∧ (mode = ("Search" : str) → query = [] → refresh_cmds mode query o = [])
    ∧ ∀ cmd, cmd ∈ refresh_cmds mode query o →
        cmd = [("search" : str); query] ∨ cmd = [("list" : str)]
        ∨ (head cmd = Some ("upgrade" : str) ∧ ("--all" : str) ∉ cmd).
Proof.
  intros Hexe Hne.
  assert (∀ args w, spawned os args w = [exe :: args]) as Hsp.
  { intros args w0. unfold spawned. rewrite Hexe. by destruct exe. }
  unfold refresh_worker, refresh_cmds.
  rewrite get_pins_traced, Hsp.
  destruct (get_pins_total os w) as (pins & w1 & ->). cbn [fst snd].
  case_bool_decide as Hs; [destruct query as [|c query]|case_bool_decide as Hi].
  - eexists _, _, _. split; [reflexivity|].
    split_and!; [done|simpl; lia|done|]. by intros cmd ?%elem_of_nil.
  - rewrite run_winget_traced, Hsp.
    destruct (run_winget_ok os [("search" : str); c :: query] None w1)
      as (rc & out & w2 & ->). cbn [fst snd].
    eexists _, _, _. split; [reflexivity|].
    split_and!; [by rewrite <- (app_assoc tr)|simpl; lia|done|].
    intros cmd ->%list_elem_of_singleton. by left.
  - rewrite run_winget_traced, Hsp.
    destruct (run_winget_ok os [("list" : str)] None w1) as (rc & out & w2 & ->).
    cbn [fst snd].
    eexists _, _, _. split; [reflexivity|].
    split_and!; [by rewrite <- (app_assoc tr)|simpl; lia|done|].
    intros cmd ->%list_elem_of_singleton. right. by left.
  - rewrite run_winget_traced, Hsp.
    destruct (run_winget_ok os (upgrades_cmd o) None w1) as (rc & out & w2 & ->).
    cbn [fst snd].
    eexists _, _, _. split; [reflexivity|].
    split_and!; [by rewrite <- (app_assoc tr)|simpl; lia|done|].
    intros cmd ->%list_elem_of_singleton. right. right.
    split; [done|]. unfold upgrades_cmd.
    destruct (include_unknown_var o), (include_pinned_var o); simpl;
      rewrite ?elem_of_cons, elem_of_nil; intros H; decompose [or] H; done.
Qed.
End RefreshTracing.

Lemma refresh_processes_witness :
  ∃ r q' w',
    refresh_worker (tracing (scripted (Some ("winget.exe" : str)))) "Installed" "foo"
      demo_options [] ([exits 0 pin_listing ""; exits 0 listing ""], [])
    = (r, q', (w', [[("winget.exe" : str); ("pin" : str); ("list" : str)];
                    [("winget.exe" : str); ("list" : str)]])).
Proof.
  destruct (refresh_processes (scripted (Some ("winget.exe" : str))) "winget.exe"
              "Installed" "foo" demo_options []
              [exits 0 pin_listing ""; exits 0 listing ""] []
              (λ _, eq_refl) ltac:(discriminate))
    as (r & q' & w' & _ & H & _).
  by exists r, q', w'.
Defined.

(** ** The end of a run of commands *)




Section RunManyFacts.
Context {World : Type} (os : OS World).

End RunManyFacts.


(** ** The local filter on the loaded records *)



(** * Web links *)

Lemma read_quote_char (c : ascii) (r : str) : read_char (quote_char c ++ r) = Some (c, r).
Proof.
  destruct c as [[] [] [] [] [] [] [] []]; vm_compute; reflexivity.
Qed.

Lemma read_path_char_spec (c : ascii) (r : str) :
  read_path_char (path_char c ++ r) = Some (c, r).
Proof.
  destruct c as [[] [] [] [] [] [] [] []]; vm_compute; reflexivity.
Qed.

Lemma quote_char_link (c : ascii) : forallb link_char (quote_char c) = true.
Proof.
  destruct c as [[] [] [] [] [] [] [] []]; vm_compute; reflexivity.
Qed.

Lemma read_char_nil : read_char [] = None.
Proof. reflexivity. Qed.

Lemma concat_read_inj (enc : ascii → str) (read : str → option (ascii * str)) :
  read [] = None → (∀ c r, read (enc c ++ r) = Some (c, r)) →
  ∀ s1 s2, concat (map enc s1) = concat (map enc s2) → s1 = s2.
Proof.
  intros Hnil Hread. induction s1 as [|c1 s1 IH]; intros [|c2 s2] H; simpl in H.
  - done.
  - apply (f_equal read) in H. by rewrite Hnil, Hread in H.
  - apply (f_equal read) in H. by rewrite Hnil, Hread in H.
  - apply (f_equal read) in H. rewrite !Hread in H.
    inversion H as [[H1 H2]]. f_equal. by apply IH.
Qed.

Lemma quote_inj (s1 s2 : str) : quote s1 = quote s2 → s1 = s2.
Proof. apply (concat_read_inj quote_char read_char); [done|apply read_quote_char]. Qed.

Lemma split_on_cons (sep : ascii) (s : str) : ∃ p ps, split_on sep s = p :: ps.
Proof.
  induction s as [|c s (p & ps & IH)]; simpl; [by eauto|].
  case_bool_decide; [by eauto|]. rewrite IH. by eauto.
Qed.

(** The path of a [winget.run] page, character by character. *)
Lemma path_spec (s : str) :
  join "/" (map quote (split_on "."%char s)) = concat (map path_char s).
Proof.
  induction s as [|c s IH]; [done|].
  destruct (split_on_cons "."%char s) as (p & ps & Hs).
  cbn [split_on map concat]. unfold path_char at 1. rewrite Hs in *.
  case_bool_decide as Hc.
  - rewrite <- IH. done.
  - rewrite <- IH. cbn [map]. unfold quote at 1. cbn [map concat].
    fold (quote p). destruct ps; cbn [map join]; [done|].
    by rewrite <- app_assoc.
Qed.

Lemma path_inj (s1 s2 : str) :
  concat (map path_char s1) = concat (map path_char s2) → s1 = s2.
Proof.
  apply (concat_read_inj path_char read_path_char); [done|apply read_path_char_spec].
Qed.

Lemma forallb_concat_map {A} (p : ascii → bool) (f : A → str) (l : list A) :
  (∀ a, forallb p (f a) = true) → forallb p (concat (map f l)) = true.
Proof.
  intros H. induction l as [|a l IH]; [done|]. simpl.
  by rewrite forallb_app, H, IH.
Qed.

Lemma quote_link (s : str) : forallb link_char (quote s) = true.
Proof. apply forallb_concat_map, quote_char_link. Qed.

Lemma path_link (s : str) : forallb link_char (concat (map path_char s)) = true.
Proof.
  apply forallb_concat_map. intros c. unfold path_char.
  case_bool_decide; [done|apply quote_char_link].
Qed.

Lemma contains_char (c : ascii) (s : str) : contains [c] s = true ↔ c ∈ s.
Proof.
  induction s as [|d s IH]; simpl.
  - split; [done|by intros ?%elem_of_nil].
  - rewrite orb_true_iff, IH, andb_true_iff, bool_decide_eq_true, elem_of_cons.
    destruct s; naive_solver.
Qed.

Lemma lower_char_backslash (c : ascii) : lower_char c = "\"%char → c = "\"%char.
Proof.
  destruct c as [[] [] [] [] [] [] [] []]; vm_compute; congruence.
Qed.

(** The third test of the two functions never decides: an identifier
    without backslash does not start with [arp\] or [msix\]. *)
Lemma plain_id_spec (pid : str) :
  plain_id pid = true ↔ pid ≠ [] ∧ "\"%char ∉ pid.
Proof.
  unfold plain_id. rewrite !andb_true_iff, !negb_true_iff.
  rewrite <- (contains_char "\"%char pid), not_true_iff_false.
  split.
  - intros [[H1 H2] _]. split; [by destruct pid|done].
  - intros [H1 H2]. split_and!; [by destruct pid|done|].
    apply not_true_iff_false. intros H. apply not_true_iff_false in H2. apply H2.
    apply contains_char. apply orb_true_iff in H as [H|H].
    + destruct pid as [|c1 [|c2 [|c3 [|c4 pid]]]];
        cbn [lower map] in H; simpl in H; rewrite ?andb_true_iff in H;
        try (decompose [and] H; discriminate).
      destruct H as (_ & _ & _ & H & _). apply bool_decide_eq_true in H.
      symmetry in H. apply lower_char_backslash in H as ->.
      rewrite !elem_of_cons. auto.
    + destruct pid as [|c1 [|c2 [|c3 [|c4 [|c5 pid]]]]];
        cbn [lower map] in H; simpl in H; rewrite ?andb_true_iff in H;
        try (decompose [and] H; discriminate).
      destruct H as (_ & _ & _ & _ & H & _). apply bool_decide_eq_true in H.
      symmetry in H. apply lower_char_backslash in H as ->.
      rewrite !elem_of_cons. auto 10.
Qed.

(** X23. The two link builders decide alike, on the trimmed identifier
    alone: when it is not empty and has no backslash they give the page
    of the package, [winstall.app/apps/] with the identifier quoted, and
    [winget.run/pkg/] with a slash for each dot of the identifier and
    the other characters quoted; otherwise both give the same search
    link, for the trimmed name or, when that is empty, the trimmed
    identifier. The test on the prefixes [arp\] and [msix\] never
    decides. *)
Theorem link_kinds (pkg_id pkg_name : str) :
  let pid := strip pkg_id in
  let q := str_or (strip pkg_name) pid in
  (plain_id pid = true ↔ pid ≠ [] ∧ "\"%char ∉ pid)
  ∧ (plain_id pid = true →
       _winstall_url_for pkg_id pkg_name = "https://winstall.app/apps/" ++ quote pid
       ∧ _wingetrun_url_for pkg_id pkg_name =
           "https://winget.run/pkg/" ++ concat (map path_char pid))
  ∧ (plain_id pid = false →
       _winstall_url_for pkg_id pkg_name = "https://winget.run/search?query=" ++ quote q
       ∧ _wingetrun_url_for pkg_id pkg_name = "https://winget.run/search?query=" ++ quote q).
Proof.
  intros pid q. split; [apply plain_id_spec|].
  unfold _winstall_url_for, _wingetrun_url_for. fold pid.
  split; intros ->; [|done]. by rewrite path_spec.
Qed.

(** X24. Whatever the identifier and the name are, the links are made
    of ASCII letters, digits and the marks [_.-~%:/?=] only: no space,
    no quotation mark, no backslash and no character outside ASCII. *)
Theorem link_chars (pkg_id pkg_name : str) :
  forallb link_char (_winstall_url_for pkg_id pkg_name) = true
  ∧ forallb link_char (_wingetrun_url_for pkg_id pkg_name) = true.
Proof.
  unfold _winstall_url_for, _wingetrun_url_for.
  destruct (plain_id (strip pkg_id)); rewrite ?path_spec, !forallb_app;
    rewrite ?quote_link, ?path_link; done.
Qed.

(** X25. Two identifiers that both lead to a package page lead to the
    same page only when they are equal once trimmed, on either site:
    quoting, and writing slashes for dots, lose nothing. *)
Theorem page_links_distinct (id1 id2 name1 name2 : str) :
  plain_id (strip id1) = true → plain_id (strip id2) = true →
  (_winstall_url_for id1 name1 = _winstall_url_for id2 name2 → strip id1 = strip id2)
  ∧ (_wingetrun_url_for id1 name1 = _wingetrun_url_for id2 name2 → strip id1 = strip id2).
Proof.
  intros H1 H2. unfold _winstall_url_for, _wingetrun_url_for. rewrite H1, H2.
  split; intros H.
  - apply app_inv_head in H. by apply quote_inj.
  - apply app_inv_head in H. rewrite !path_spec in H. by apply path_inj.
Qed.

Lemma page_links_distinct_witness :
  strip (" Mozilla.Firefox" : str) = strip ("Mozilla.Firefox  " : str).
Proof.
  apply (page_links_distinct " Mozilla.Firefox" "Mozilla.Firefox  "
           "Firefox" "Mozilla Firefox"); vm_compute; reflexivity.
Defined.
